(** * Synthizer: the SPSC audio ring, the filter-design C API and the
    global-effect tick, embedded from the C++ sources.

    - [AudioRing]        : include/synthizer/audio_ring.hpp
    - [FilterProperties] : src/filter_properties.cpp
    - [GlobalEffectRun]  : include/synthizer/effects/global_effect.hpp *)

From stdpp Require Import base numbers list vector sets.

(** ** [std::size_t] arithmetic

    Ring indices and counters are [std::size_t].  They are embedded as [Z]
    and every addition and subtraction of the source goes through [wrap]. *)
Module SizeT.
Local Open Scope Z_scope.

Definition bits : Z := 64.
Definition modulus : Z := 2 ^ bits.
(** Largest size of a C++ array object ([PTRDIFF_MAX]). *)
Definition ptrdiff_max : Z := 2 ^ (bits - 1) - 1.

Definition wrap (x : Z) : Z := x `mod` modulus.
Definition add (x y : Z) : Z := wrap (x + y).
Definition sub (x y : Z) : Z := wrap (x - y).

Definition in_range (x : Z) : Prop := 0 ≤ x < modulus.

End SizeT.

(** ** audio_ring.hpp *)
Module AudioRing.
Local Open Scope Z_scope.

(** [std::memory_order]. *)
Inductive memory_order :=
| memory_order_relaxed
| memory_order_consume
| memory_order_acquire
| memory_order_release
| memory_order_acq_rel
| memory_order_seq_cst.

(** What a member function does to the shared objects of the ring, in
    program order: accesses to the atomic [samples_in_buffer] with their
    ordering, and operations on [read_end_event]. *)
Inductive effect :=
| AtomicLoad (order : memory_order)
| AtomicFetchAdd (amount : Z) (order : memory_order)
| AtomicFetchSub (amount : Z) (order : memory_order)
| EventSignal.

(** How a call ends.  [assert] is the one of <cassert> with [NDEBUG] not
    defined: a false condition aborts the call.  [Blocks] is a call that
    waits on [read_end_event] for another thread. *)
Inductive outcome (A : Type) :=
| Returns (a : A)
| AssertionFailed
| Blocks.
Arguments Returns {A} a.
Arguments AssertionFailed {A}.
Arguments Blocks {A}.

Global Instance outcome_ret : MRet outcome := λ A a, Returns a.
Global Instance outcome_bind : MBind outcome := λ A B f m,
  match m with
  | Returns a => f a
  | AssertionFailed => AssertionFailed
  | Blocks => Blocks
  end.

(** [ELEM_T *] into the backing array: [None] is [nullptr], [Some i] is
    [&data_provider[0] + i]. *)
Definition pointer := option Z.

(** [std::tuple<std::size_t, ELEM_T *, std::size_t, ELEM_T *>]. *)
Definition regions : Type := Z * pointer * Z * pointer.

Section ring.
Context {ELEM_T : Type}.

(** The members of [AudioRingBase].  [data_provider] is the backing
    array of either provider; [size()] is its length. *)
Record AudioRingBase := mkAudioRingBase {
  data_provider : list ELEM_T;
  write_pointer : Z;
  read_pointer : Z;
  samples_in_buffer : Z;
  pending_write_size : Z;
  pending_read_size : Z;
  (** Modelled from the spec: [AutoResetEvent] (autoresetevent.h is
      third-party and absent).  The flag is [true] once the event is
      signalled and until a waiter consumes it. *)
  read_end_event : bool;
}.

Definition size (r : AudioRingBase) : Z := Z.of_nat (length (data_provider r)).

Definition set_pending_write_size (v : Z) (r : AudioRingBase) : AudioRingBase :=
  mkAudioRingBase (data_provider r) (write_pointer r) (read_pointer r)
    (samples_in_buffer r) v (pending_read_size r) (read_end_event r).

Definition set_pending_read_size (v : Z) (r : AudioRingBase) : AudioRingBase :=
  mkAudioRingBase (data_provider r) (write_pointer r) (read_pointer r)
    (samples_in_buffer r) (pending_write_size r) v (read_end_event r).

Definition set_data_provider (d : list ELEM_T) (r : AudioRingBase) : AudioRingBase :=
  mkAudioRingBase d (write_pointer r) (read_pointer r)
    (samples_in_buffer r) (pending_write_size r) (pending_read_size r)
    (read_end_event r).

(** [beginWrite].  The do-while loop runs once when the space suffices.
    When it does not, the call waits: [wait()] returns at once if the
    event is already signalled, but no other member function runs inside
    this call, so the loop loads the same counter again and waits for
    good.  Such a call [Blocks] until a reader, on another thread, ends a
    read. *)
Definition beginWrite (r : AudioRingBase) (requested : Z) (maxAvailable : bool)
  : outcome (regions * AudioRingBase * list effect) :=
  if negb (maxAvailable || negb (requested =? 0)) then AssertionFailed
  else if negb (requested <=? size r) then AssertionFailed
  else
    let available := SizeT.sub (size r) (samples_in_buffer r) in
    if available <? requested then Blocks
    else
      let allocating := if maxAvailable then available else requested in
      let r' := set_pending_write_size allocating r in
      let size1 := Z.min (SizeT.sub (size r) (write_pointer r)) allocating in
      if size1 =? allocating then
        Returns ((size1, Some (write_pointer r), 0, None), r',
                 [AtomicLoad memory_order_relaxed])
      else
        let size2 := SizeT.sub allocating size1 in
        Returns ((size1, Some (write_pointer r), size2, Some 0), r',
                 [AtomicLoad memory_order_relaxed]).

(** [endWrite(amount)]. *)
Definition endWrite (r : AudioRingBase) (amount : Z)
  : outcome (AudioRingBase * list effect) :=
  if negb (amount <=? pending_write_size r) then AssertionFailed
  else
    Returns
      (mkAudioRingBase (data_provider r)
         (SizeT.add (write_pointer r) amount `mod` size r)
         (read_pointer r)
         (SizeT.add (samples_in_buffer r) amount)
         (SizeT.sub (pending_write_size r) amount)
         (pending_read_size r)
         (read_end_event r),
       [AtomicFetchAdd amount memory_order_release]).

(** [endWrite()]: commit the entire write. *)
Definition endWrite_all (r : AudioRingBase) : outcome (AudioRingBase * list effect) :=
  endWrite r (pending_write_size r).

(** [beginRead]. *)
Definition beginRead (r : AudioRingBase) (requested : Z) (maxAvailable : bool)
  : outcome (regions * AudioRingBase * list effect) :=
  if negb (maxAvailable || negb (requested =? 0)) then AssertionFailed
  else if negb (requested <=? size r) then AssertionFailed
  else
    let available := samples_in_buffer r in
    if (available =? 0) || ((available <? requested) && negb maxAvailable) then
      Returns ((0, None, 0, None), r, [AtomicLoad memory_order_acquire])
    else
      let allocating := if maxAvailable then available else requested in
      let r' := set_pending_read_size allocating r in
      let size1 := Z.min allocating (SizeT.sub (size r) (read_pointer r)) in
      let ptr1 := Some (read_pointer r) in
      if size1 =? allocating then
        Returns ((size1, ptr1, 0, None), r', [AtomicLoad memory_order_acquire])
      else
        let size2 := SizeT.sub allocating size1 in
        let ptr2 := Some 0 in
        Returns ((size1, ptr1, size2, ptr2), r', [AtomicLoad memory_order_acquire]).

(** [endRead(amount)]. *)
Definition endRead (r : AudioRingBase) (amount : Z)
  : outcome (AudioRingBase * list effect) :=
  if negb (amount <=? pending_read_size r) then AssertionFailed
  else
    Returns
      (mkAudioRingBase (data_provider r)
         (write_pointer r)
         (SizeT.add (read_pointer r) amount `mod` size r)
         (SizeT.sub (samples_in_buffer r) amount)
         (pending_write_size r)
         (SizeT.sub (pending_read_size r) amount)
         true,
       [AtomicFetchSub amount memory_order_release; EventSignal]).

(** [endRead()]: commit the entire read. *)
Definition endRead_all (r : AudioRingBase) : outcome (AudioRingBase * list effect) :=
  endRead r (pending_read_size r).

(** A ring as its constructor leaves it: [n] value-initialised elements
    ([InlineAudioRingProvider] and [AllocatedRingProvider::allocate]
    both zero the array) and every other member at its default. *)
Definition new_ring (zero : ELEM_T) (n : nat) : AudioRingBase :=
  mkAudioRingBase (replicate n zero) 0 0 0 0 0 false.

(** *** Transactions

    A writer and a reader as the header comment describes them: ask for
    regions, copy to or from the first region and then the second, commit. *)

(** [ptr[i] = xs[i]] for every [i < length xs]. *)
Definition store_region (d : list ELEM_T) (p : pointer) (xs : list ELEM_T) : list ELEM_T :=
  match p with
  | Some base => list_inserts (Z.to_nat base) xs d
  | None => d
  end.

(** The [len] samples [ptr[0]], ..., [ptr[len - 1]]. *)
Definition load_region (d : list ELEM_T) (len : Z) (p : pointer) : list ELEM_T :=
  match p with
  | Some base => take (Z.to_nat len) (drop (Z.to_nat base) d)
  | None => []
  end.

(** [beginWrite(requested, maxAvailable)], the copy of [samples] into the
    two regions in order, then [endWrite(samples.size())]. *)
Definition write_transaction (r : AudioRingBase) (requested : Z) (maxAvailable : bool)
    (samples : list ELEM_T) : outcome AudioRingBase :=
  '(size1, ptr1, size2, ptr2, r1, _) ← beginWrite r requested maxAvailable;
  let first := take (Z.to_nat size1) samples in
  let second := take (Z.to_nat size2) (drop (Z.to_nat size1) samples) in
  let d1 := store_region (data_provider r1) ptr1 first in
  let d2 := store_region d1 ptr2 second in
  '(r2, _) ← endWrite (set_data_provider d2 r1) (Z.of_nat (length samples));
  mret r2.

(** [beginRead(requested, maxAvailable)], the copy out of the two regions
    in order, then [endRead()]. *)
Definition read_transaction (r : AudioRingBase) (requested : Z) (maxAvailable : bool)
  : outcome (list ELEM_T * AudioRingBase) :=
  '(size1, ptr1, size2, ptr2, r1, _) ← beginRead r requested maxAvailable;
  let xs := load_region (data_provider r1) size1 ptr1
            ++ load_region (data_provider r1) size2 ptr2 in
  '(r2, _) ← endRead_all r1;
  mret (xs, r2).

Inductive transaction :=
| WriteTx (requested : Z) (maxAvailable : bool) (samples : list ELEM_T)
| ReadTx (requested : Z) (maxAvailable : bool).

(** What a run of transactions moved: the samples the writes committed
    and the samples the reads obtained, each in order. *)
Record history := mkHistory {
  committed : list ELEM_T;
  obtained : list ELEM_T;
}.

Fixpoint run (txs : list transaction) (r : AudioRingBase)
  : outcome (history * AudioRingBase) :=
  match txs with
  | [] => mret (mkHistory [] [], r)
  | WriteTx requested maxAvailable samples :: txs' =>
      r1 ← write_transaction r requested maxAvailable samples;
      '(h, r2) ← run txs' r1;
      mret (mkHistory (samples ++ committed h) (obtained h), r2)
  | ReadTx requested maxAvailable :: txs' =>
      '(xs, r1) ← read_transaction r requested maxAvailable;
      '(h, r2) ← run txs' r1;
      mret (mkHistory (committed h) (xs ++ obtained h), r2)
  end.

(** The request of a transaction is a [std::size_t]. *)
Definition transaction_in_range (tx : transaction) : Prop :=
  match tx with
  | WriteTx requested _ _ => SizeT.in_range requested
  | ReadTx requested _ => SizeT.in_range requested
  end.

(** The samples in the buffer, oldest first: [samples_in_buffer] elements
    from [read_pointer] on, around the end of the array. *)
Definition contents (r : AudioRingBase) : list ELEM_T :=
  take (Z.to_nat (samples_in_buffer r))
    (drop (Z.to_nat (read_pointer r)) (data_provider r ++ data_provider r)).

(** The representation invariant of a ring: what the constructor
    establishes and every member function keeps. *)
Record ring_wf (r : AudioRingBase) : Prop := mk_ring_wf {
  wf_size : 0 < size r ≤ SizeT.ptrdiff_max;
  wf_write_pointer : 0 ≤ write_pointer r < size r;
  wf_read_pointer : 0 ≤ read_pointer r < size r;
  wf_samples : 0 ≤ samples_in_buffer r ≤ size r;
  wf_pointers :
    write_pointer r = (read_pointer r + samples_in_buffer r) `mod` size r;
  wf_pending_write : 0 ≤ pending_write_size r ≤ size r - samples_in_buffer r;
  wf_pending_read : 0 ≤ pending_read_size r ≤ samples_in_buffer r;
}.

(** [ring_wf] as a check that runs. *)
Definition ring_wfb (r : AudioRingBase) : bool :=
  (0 <? size r) && (size r <=? SizeT.ptrdiff_max)
  && (0 <=? write_pointer r) && (write_pointer r <? size r)
  && (0 <=? read_pointer r) && (read_pointer r <? size r)
  && (0 <=? samples_in_buffer r) && (samples_in_buffer r <=? size r)
  && (write_pointer r =? (read_pointer r + samples_in_buffer r) `mod` size r)
  && (0 <=? pending_write_size r)
  && (pending_write_size r <=? size r - samples_in_buffer r)
  && (0 <=? pending_read_size r)
  && (pending_read_size r <=? samples_in_buffer r).

(** A returned region [(len, p)] touches only indices of the backing
    array: every [p[i]] with [i < len] is an element of [data_provider]. *)
Definition region_in_bounds (r : AudioRingBase) (len : Z) (p : pointer) : Prop :=
  0 ≤ len ∧ ∀ i, 0 ≤ i < len → ∃ base, p = Some base ∧ 0 ≤ base + i < size r.

(** The statement "[beginRead(requested, true)] on an empty ring returns
    null pointers and zero sizes", for one ring and one request. *)
Definition empty_read_returns_null (r : AudioRingBase) (requested : Z) : Prop :=
  samples_in_buffer r = 0 →
  ∃ r' es, beginRead r requested true = Returns ((0, None, 0, None), r', es).

(** The statement "the decrement of the counter in [endRead] has acquire
    ordering", for one ring and one amount. *)
Definition endRead_decrement_acquires (r : AudioRingBase) (amount : Z) : Prop :=
  ∀ r' es, endRead r amount = Returns (r', es) →
  AtomicFetchSub amount memory_order_acquire ∈ es.

End ring.
Global Arguments AudioRingBase : clear implicits.

End AudioRing.

(** ** filter_properties.cpp *)
Module FilterProperties.
Local Open Scope Z_scope.

Section filter_properties.
(** C++ [double], kept abstract: the file moves doubles around and divides
    once.  [double_zero] and [double_one] are the literals [0.0] and [1.0],
    [double_div] is [/] on doubles. *)
Context {double : Type}.
Context (double_zero double_one : double).
Context (double_div : double → double → double).

(** [config::SR] (config.hpp is absent), converted to [double] as
    [frequency / config::SR] converts it. *)
Context (SR : double).

(** Modelled from the spec: [syz_BiquadConfig] (synthizer.h is absent), the
    six coefficients this file reads and writes. *)
Record syz_BiquadConfig := mk_syz_BiquadConfig {
  b0 : double;
  b1 : double;
  b2 : double;
  a1 : double;
  a2 : double;
  gain : double;
}.

(** Modelled from the spec: [BiquadFilterDef] (filter_design.hpp is
    absent): [std::array]s of three numerator and two denominator
    coefficients, and a gain ([def_gain], since [gain] names the member of
    [syz_BiquadConfig]). *)
Record BiquadFilterDef := mk_BiquadFilterDef {
  num_coefs : vec double 3;
  den_coefs : vec double 2;
  def_gain : double;
}.

(** [syz_BiquadConfig()]: value-initialisation zeroes every member. *)
Definition syz_BiquadConfig_zero : syz_BiquadConfig :=
  mk_syz_BiquadConfig double_zero double_zero double_zero
    double_zero double_zero double_zero.

Definition set_b0 (v : double) (c : syz_BiquadConfig) : syz_BiquadConfig :=
  mk_syz_BiquadConfig v (b1 c) (b2 c) (a1 c) (a2 c) (gain c).

Definition set_gain (v : double) (c : syz_BiquadConfig) : syz_BiquadConfig :=
  mk_syz_BiquadConfig (b0 c) (b1 c) (b2 c) (a1 c) (a2 c) v.

(** [convertBiquadDef]. *)
Definition convertBiquadDef (def : BiquadFilterDef) : syz_BiquadConfig :=
  {| b0 := num_coefs def !!! 0%fin;
     b1 := num_coefs def !!! 1%fin;
     b2 := num_coefs def !!! 2%fin;
     a1 := den_coefs def !!! 0%fin;
     a2 := den_coefs def !!! 1%fin;
     gain := def_gain def |}.

(** What a C++ exception carries, and the nonzero [syz_ErrorCode] the API
    reports for it. *)
Context {exception : Type}.
Context (error_code : exception → positive).

(** How the statements between the two macros end: normally, by a thrown
    exception, or by a store through a null pointer. *)
Inductive completion (A : Type) :=
| Normal (a : A)
| Throws (e : exception)
| Faults.
Arguments Normal {A} a.
Arguments Throws {A} e.
Arguments Faults {A}.

(** The caller's [struct syz_BiquadConfig *filter]: [None] is a null
    pointer, [Some c] points at a struct that holds [c]. *)
Definition out_param := option syz_BiquadConfig.

(** Statements that run against the caller's struct.  A throw does not
    undo the stores made before it: the struct is threaded through every
    way of completing. *)
Definition body (A : Type) : Type := out_param → completion A * out_param.

Definition body_ret {A} (a : A) : body A := λ filter, (Normal a, filter).

Definition body_bind {A B} (m : body A) (f : A → body B) : body B := λ filter,
  match m filter with
  | (Normal a, filter') => f a filter'
  | (Throws e, filter') => (Throws e, filter')
  | (Faults, filter') => (Faults, filter')
  end.

Notation "x <- m ;; k" := (body_bind m (λ x, k))
  (at level 100, m at next level, right associativity).
Notation "m ;; k" := (body_bind m (λ _, k))
  (at level 100, right associativity).

(** A call of a function that returns or throws. *)
Definition call {A} (r : exception + A) : body A := λ filter,
  (match r with inr a => Normal a | inl e => Throws e end, filter).

(** [*filter = v] and [filter->member = v], as an update of the struct. *)
Definition store (f : syz_BiquadConfig → syz_BiquadConfig) : body unit := λ filter,
  match filter with
  | Some c => (Normal tt, Some (f c))
  | None => (Faults, None)
  end.

(** How a call of the C API ends: it returns a [syz_ErrorCode] and leaves
    [*filter] in some state, or the process crashes. *)
Inductive api_result :=
| ApiReturns (code : Z) (filter : out_param)
| ApiCrashes.

(** Modelled from the spec: [SYZ_PROLOGUE] and [SYZ_EPILOGUE] (c_api.hpp is
    absent).  "External API calls signal errors by return code": the body
    runs inside a try block, and an exception that leaves it becomes a
    nonzero return code. *)
Definition SYZ_PROLOGUE_EPILOGUE (b : body Z) (filter : out_param) : api_result :=
  match b filter with
  | (Normal code, filter') => ApiReturns code filter'
  | (Throws e, filter') => ApiReturns (Z.pos (error_code e)) filter'
  | (Faults, _) => ApiCrashes
  end.

(** The cookbook designers (filter_design.hpp and
    filters/audio_eq_cookbook.cpp are absent): any functions of the
    normalised frequency and the second parameter that return a
    definition or throw. *)
Context (designAudioEqLowpass designAudioEqHighpass designAudioEqBandpass
  : double → double → exception + BiquadFilterDef).

(** [syz_biquadDesignIdentity]. *)
Definition syz_biquadDesignIdentity : out_param → api_result :=
  SYZ_PROLOGUE_EPILOGUE (
    store (λ _, syz_BiquadConfig_zero) ;;
    store (set_b0 double_one) ;;
    store (set_gain double_one) ;;
    body_ret 0).

(** [syz_biquadDesignLowpass]. *)
Definition syz_biquadDesignLowpass (filter : out_param) (frequency q : double)
  : api_result :=
  SYZ_PROLOGUE_EPILOGUE (
    def <- call (designAudioEqLowpass (double_div frequency SR) q) ;;
    store (λ _, convertBiquadDef def) ;;
    body_ret 0) filter.

(** [syz_biquadDesignHighpass]. *)
Definition syz_biquadDesignHighpass (filter : out_param) (frequency q : double)
  : api_result :=
  SYZ_PROLOGUE_EPILOGUE (
    def <- call (designAudioEqHighpass (double_div frequency SR) q) ;;
    store (λ _, convertBiquadDef def) ;;
    body_ret 0) filter.

(** [syz_biquadDesignBandpass]. *)
Definition syz_biquadDesignBandpass (filter : out_param) (frequency bw : double)
  : api_result :=
  SYZ_PROLOGUE_EPILOGUE (
    def <- call (designAudioEqBandpass (double_div frequency SR) bw) ;;
    store (λ _, convertBiquadDef def) ;;
    body_ret 0) filter.

(** The three designing entry points, to speak of all of them at once. *)
Inductive design := Lowpass | Highpass | Bandpass.

Definition designAudioEq (k : design) : double → double → exception + BiquadFilterDef :=
  match k with
  | Lowpass => designAudioEqLowpass
  | Highpass => designAudioEqHighpass
  | Bandpass => designAudioEqBandpass
  end.

Definition syz_biquadDesign (k : design) : out_param → double → double → api_result :=
  match k with
  | Lowpass => syz_biquadDesignLowpass
  | Highpass => syz_biquadDesignHighpass
  | Bandpass => syz_biquadDesignBandpass
  end.

End filter_properties.
End FilterProperties.

(** ** effects/global_effect.hpp *)
Module GlobalEffectRun.
Local Open Scope Z_scope.

(** [unsigned int] arithmetic. *)
Definition uint_modulus : Z := 2 ^ 32.
Definition uint_wrap (x : Z) : Z := x `mod` uint_modulus.

(** The calls [run] makes, in program order. *)
Inductive call :=
| CallCreateBiquadFilter
| CallAcquireFilter
| CallConfigure
| CallProcessBlock
| CallRunEffect
| CallFill.

Section global_effect.
(** C++ [float] with the literal [0.0f], [syz_BiquadConfig], the filter
    behind [std::shared_ptr<BiquadFilter>], and the rest of the object (the
    property block of [BaseObject] and the members of the class that
    derives from [GlobalEffect]); all of them only pass through [run]. *)
Context {float syz_BiquadConfig BiquadFilter object_state : Type}.
Context (float_zero : float).

(** [config::BLOCK_SIZE] and [config::MAX_CHANNELS] (config.hpp is absent). *)
Context (BLOCK_SIZE MAX_CHANNELS : Z).

(** The collaborators of [run] that other files define.  A buffer passed
    by pointer comes back as its new contents; [createBiquadFilter] hands
    back a filter, never a null pointer. *)
Context (createBiquadFilter : Z → BiquadFilter).
Context (configure : BiquadFilter → syz_BiquadConfig → BiquadFilter).
(** [processBlock(in, out, add)] called with [in == out]. *)
Context (processBlock : BiquadFilter → list float → bool → BiquadFilter * list float).
(** [acquireFilter(cfg)]: [Some cfg] when it returns [true]. *)
Context (acquireFilter : object_state → option syz_BiquadConfig * object_state).
(** [(float)this->getGain()]. *)
Context (getGain : object_state → float).
(** [runEffect(time_in_blocks, input_channels, input, output_channels,
    output, gain)]: the new object state, input and output. *)
Context (runEffect : object_state → Z → Z → list float → Z → list float → float →
                     object_state * list float * list float).

Record GlobalEffect := mkGlobalEffect {
  input_buffer : list float;
  channels : Z;
  time_in_blocks : Z;
  last_channels : Z;
  (** [None] is [nullptr]. *)
  biquad_filter : option BiquadFilter;
  object : object_state;
}.

(** [p == nullptr]. *)
Definition is_null {A} (p : option A) : bool :=
  match p with None => true | Some _ => false end.

(** [std::fill(&a[0], &a[last], v)]; forming [&a[last]] past the end of
    the array has no defined behaviour, hence [None]. *)
Definition std_fill (a : list float) (last : Z) (v : float) : option (list float) :=
  if (0 <=? last) && (last <=? Z.of_nat (length a)) then
    Some (replicate (Z.to_nat last) v ++ drop (Z.to_nat last) a)
  else None.

(** [run(channels, destination)].  [out_channels] is the parameter that
    shadows the member [channels]. *)
Definition run (e : GlobalEffect) (out_channels : Z) (destination : list float)
  : option (GlobalEffect * list float * list call) :=
  let '(filter1, log1) :=
    if (is_null (biquad_filter e) || negb (channels e =? last_channels e))
       && negb (channels e =? 0)
    then (Some (createBiquadFilter (channels e)), [CallCreateBiquadFilter])
    else (biquad_filter e, []) in
  let '(filter2, object2, buffer2, log2) :=
    match filter1 with
    | Some f =>
        let '(cfg, object') := acquireFilter (object e) in
        let '(f', log_cfg) :=
          match cfg with
          | Some c => (configure f c, [CallAcquireFilter; CallConfigure])
          | None => (f, [CallAcquireFilter])
          end in
        let '(f'', buffer') := processBlock f' (input_buffer e) false in
        (Some f'', object', buffer', log_cfg ++ [CallProcessBlock])
    | None => (None, object e, input_buffer e, [])
    end in
  let last_channels' := channels e in
  let '(object3, buffer3, destination') :=
    runEffect object2 (time_in_blocks e) (channels e) buffer2
      out_channels destination (getGain object2) in
  buffer4 ← std_fill buffer3 (uint_wrap (channels e * BLOCK_SIZE)) float_zero;
  Some (mkGlobalEffect buffer4 (channels e) (uint_wrap (time_in_blocks e + 1))
          last_channels' filter2 object3,
        destination',
        log1 ++ log2 ++ [CallRunEffect; CallFill]).

(** What the declarations promise of an effect: [input_buffer] is a
    [std::array] of [BLOCK_SIZE * MAX_CHANNELS] floats, and the effect has
    no more channels than the array has room for. *)
Record effect_wf (e : GlobalEffect) : Prop := mk_effect_wf {
  wf_input_buffer : Z.of_nat (length (input_buffer e)) = BLOCK_SIZE * MAX_CHANNELS;
  wf_channels : 0 ≤ channels e ≤ MAX_CHANNELS;
}.

End global_effect.
End GlobalEffectRun.

(** ** Concrete rings, designers and effects *)
Module Examples.
Import AudioRing FilterProperties GlobalEffectRun.
Local Open Scope Z_scope.

(** A ring of capacity 4 that buffers two samples, [10] and [7], around
    the end of its array. *)
Definition wrapped_ring : AudioRingBase Z :=
  mkAudioRingBase [7; 8; 9; 10] 1 3 2 0 0 false.

(** The same ring after a [beginRead(2)]: the read of two samples is
    pending. *)
Definition reading_ring : AudioRingBase Z :=
  mkAudioRingBase [7; 8; 9; 10] 1 3 2 0 2 false.

(** A writer and a reader on a ring of capacity 4: the second write and
    the second read wrap, the third read asks for more than is buffered,
    the last write takes all the free space and commits half of it. *)
Definition session : list (transaction (ELEM_T := Z)) :=
  [ WriteTx 3 false [1; 2; 3];
    ReadTx 2 false;
    WriteTx 3 false [4; 5; 6];
    ReadTx 3 false;
    ReadTx 2 false;
    WriteTx 0 true [7; 8];
    ReadTx 2 false ].

(** Designers over [Z] in place of [double]: the low-pass designer throws,
    the other two return a definition made of their arguments. *)
Definition throwing_designer (w q : Z) : unit + BiquadFilterDef (double := Z) :=
  inl ().

Definition returning_designer (w q : Z) : unit + BiquadFilterDef (double := Z) :=
  inr (mk_BiquadFilterDef [# w; q; w + q] [# w - q; w * q] 2).

Definition some_config : syz_BiquadConfig (double := Z) :=
  mk_syz_BiquadConfig 11 12 13 14 15 16.

(** An effect with one channel out of two, blocks of two frames, a filter
    that doubles every sample and an effect that adds its input to the
    destination. *)
Definition doubling_processBlock (f : unit) (buffer : list Z) (add : bool)
  : unit * list Z :=
  (f, Z.mul 2 <$> buffer).

Definition adding_runEffect (o : unit) (time_in_blocks in_channels : Z)
    (input : list Z) (out_channels : Z) (output : list Z) (g : Z)
  : unit * list Z * list Z :=
  (o, input, zip_with Z.add output input).

Definition mono_effect : GlobalEffect (float := Z) (BiquadFilter := unit) (object_state := unit) :=
  mkGlobalEffect [1; 2; 3; 4] 1 0 0 None ().

Definition mono_run :=
  GlobalEffectRun.run (syz_BiquadConfig := unit) 0 2 (λ _, ()) (λ f _, f) doubling_processBlock
    (λ o, (None, o)) (λ _, 1) adding_runEffect.

End Examples.

(** ** audio_ring.hpp: construction and use by two threads *)
Module AudioRingUse.
Import AudioRing.
Local Open Scope Z_scope.

Section ring_use.
Context {ELEM_T : Type}.


(** The use the comment above [beginWrite] speaks of: the ring size is a
    multiple of the block size [k], and so is each pointer. *)
Definition aligned (k : Z) (r : AudioRingBase ELEM_T) : Prop :=
  (k | size r) ∧ (k | write_pointer r) ∧ (k | read_pointer r).

(** A transaction of that use: it asks for exactly [k] samples and commits
    all of them. *)
Definition whole_block (k : Z) (tx : transaction (ELEM_T := ELEM_T)) : Prop :=
  match tx with
  | WriteTx requested maxAvailable samples =>
      requested = k ∧ maxAvailable = false ∧ Z.of_nat (length samples) = k
  | ReadTx requested maxAvailable => requested = k ∧ maxAvailable = false
  end.

(** *** The writer and the reader as two threads

    Each thread makes its calls in its own order; the calls of the two
    threads interleave in any way.  Memory orderings are not part of this
    model: a call takes effect at once and as a whole. *)

Definition regions_length (rg : regions) : Z :=
  let '(size1, _, size2, _) := rg in size1 + size2.

(** The copy of [xs] into the regions: the first region, then the second. *)
Definition store_regions (d : list ELEM_T) (rg : regions) (xs : list ELEM_T)
  : list ELEM_T :=
  let '(size1, ptr1, size2, ptr2) := rg in
  store_region
    (store_region d ptr1 (take (Z.to_nat size1) xs))
    ptr2 (take (Z.to_nat size2) (drop (Z.to_nat size1) xs)).

(** The copy out of the regions, in the same order. *)
Definition load_regions (d : list ELEM_T) (rg : regions) : list ELEM_T :=
  let '(size1, ptr1, size2, ptr2) := rg in
  load_region d size1 ptr1 ++ load_region d size2 ptr2.

Record threads := mkThreads {
  shared : AudioRingBase ELEM_T;
  (** The regions of the last [beginWrite], until the writer has filled
      them. *)
  writer_regions : option regions;
  (** The samples the writer has put into its regions and not committed. *)
  writer_stored : list ELEM_T;
  (** The regions of the last [beginRead] that did not underflow, until the
      reader has copied them out. *)
  reader_regions : option regions;
  (** The samples the reader has copied out and not given back. *)
  reader_loaded : list ELEM_T;
  (** Every sample committed by an [endWrite] and every sample given back
      by an [endRead], in order. *)
  all_committed : list ELEM_T;
  all_obtained : list ELEM_T;
}.

Inductive call :=
| WriterBegin (requested : Z) (maxAvailable : bool)
| WriterStore (samples : list ELEM_T)
| WriterEnd (amount : Z)
| ReaderBegin (requested : Z) (maxAvailable : bool)
| ReaderLoad
| ReaderEnd (amount : Z).

(** The value of a call that returns; a call that fails its assertion or
    waits has none. *)
Definition returned {A} (o : outcome A) : option A :=
  match o with
  | Returns a => Some a
  | AssertionFailed | Blocks => None
  end.

(** One call.  [None] is a call that cannot happen in this state: its
    assertion fails, it waits, or the caller misuses what it holds (it
    stores more samples than its regions take, commits samples it has not
    stored, gives back samples it has not copied). *)
Definition step (t : threads) (c : call) : option threads :=
  match c with
  | WriterBegin requested maxAvailable =>
      '(rg, r, _) ← returned (beginWrite (shared t) requested maxAvailable);
      Some (mkThreads r (Some rg) [] (reader_regions t) (reader_loaded t)
              (all_committed t) (all_obtained t))
  | WriterStore samples =>
      rg ← writer_regions t;
      if Z.of_nat (length samples) <=? regions_length rg then
        Some (mkThreads
                (set_data_provider
                   (store_regions (data_provider (shared t)) rg samples)
                   (shared t))
                None samples (reader_regions t) (reader_loaded t)
                (all_committed t) (all_obtained t))
      else None
  | WriterEnd amount =>
      if amount <=? Z.of_nat (length (writer_stored t)) then
        '(r, _) ← returned (endWrite (shared t) amount);
        Some (mkThreads r (writer_regions t)
                (drop (Z.to_nat amount) (writer_stored t))
                (reader_regions t) (reader_loaded t)
                (all_committed t ++ take (Z.to_nat amount) (writer_stored t))
                (all_obtained t))
      else None
  | ReaderBegin requested maxAvailable =>
      '(rg, r, _) ← returned (beginRead (shared t) requested maxAvailable);
      match rg with
      | (_, None, _, _) => Some t
      | (_, Some _, _, _) =>
          Some (mkThreads r (writer_regions t) (writer_stored t) (Some rg) []
                  (all_committed t) (all_obtained t))
      end
  | ReaderLoad =>
      rg ← reader_regions t;
      Some (mkThreads (shared t) (writer_regions t) (writer_stored t) None
              (load_regions (data_provider (shared t)) rg)
              (all_committed t) (all_obtained t))
  | ReaderEnd amount =>
      if amount <=? Z.of_nat (length (reader_loaded t)) then
        '(r, _) ← returned (endRead (shared t) amount);
        Some (mkThreads r (writer_regions t) (writer_stored t)
                (reader_regions t)
                (drop (Z.to_nat amount) (reader_loaded t))
                (all_committed t)
                (all_obtained t ++ take (Z.to_nat amount) (reader_loaded t)))
      else None
  end.

(** The calls of a schedule, one after the other. *)
Fixpoint steps (t : threads) (cs : list call) : option threads :=
  match cs with
  | [] => Some t
  | c :: cs' => t' ← step t c; steps t' cs'
  end.

(** The arguments of a call are [std::size_t]. *)
Definition call_in_range (c : call) : Prop :=
  match c with
  | WriterBegin requested _ | ReaderBegin requested _ => SizeT.in_range requested
  | WriterEnd amount | ReaderEnd amount => SizeT.in_range amount
  | WriterStore _ | ReaderLoad => True
  end.

(** Both threads idle on a ring. *)
Definition idle (r : AudioRingBase ELEM_T) : threads :=
  mkThreads r None [] None [] [] [].

(** [n] elements of the array [d] from index [p] on, around its end. *)
Definition window (d : list ELEM_T) (p n : nat) : list ELEM_T :=
  take n (drop p (d ++ d)).

(** Regions as [beginWrite] or [beginRead] computes them from a pointer
    and an allocation [a]. *)
Definition regions_from (r : AudioRingBase ELEM_T) (ptr a : Z) (rg : regions) : Prop :=
  let '(size1, ptr1, size2, ptr2) := rg in
  ptr1 = Some ptr
  ∧ size1 = Z.min a (size r - ptr)
  ∧ size1 + size2 = a
  ∧ (ptr2 = Some 0 ∨ ptr2 = None ∧ size2 = 0).

(** What holds of the two threads between any two calls. *)
Record threads_ok (t : threads) : Prop := mk_threads_ok {
  ok_ring : ring_wf (shared t);
  ok_writer_regions : ∀ rg, writer_regions t = Some rg →
    writer_stored t = []
    ∧ 0 ≤ pending_write_size (shared t)
    ∧ regions_from (shared t) (write_pointer (shared t))
        (pending_write_size (shared t)) rg;
  ok_writer_stored :
    Z.of_nat (length (writer_stored t)) ≤ pending_write_size (shared t)
    ∧ window (data_provider (shared t)) (Z.to_nat (write_pointer (shared t)))
        (length (writer_stored t))
      = writer_stored t;
  ok_reader_regions : ∀ rg, reader_regions t = Some rg →
    reader_loaded t = []
    ∧ regions_from (shared t) (read_pointer (shared t))
        (pending_read_size (shared t)) rg;
  ok_reader_loaded :
    Z.of_nat (length (reader_loaded t)) ≤ pending_read_size (shared t)
    ∧ window (data_provider (shared t)) (Z.to_nat (read_pointer (shared t)))
        (length (reader_loaded t))
      = reader_loaded t;
  ok_fifo : all_committed t = all_obtained t ++ contents (shared t);
}.

End ring_use.
End AudioRingUse.

(** ** effects/global_effect.hpp: construction and the router *)
Module GlobalEffectUse.
Import GlobalEffectRun.
Local Open Scope Z_scope.

Section global_effect_use.
Context {float BiquadFilter object_state : Type}.
Context (float_zero : float).
Context (BLOCK_SIZE MAX_CHANNELS : Z).

(** The constructor [GlobalEffect(ctx, channels)]: [input_buffer()] zeroes
    the array, [channels(channels)] sets the member, and the default
    member initialisers give 0 to [time_in_blocks] and [last_channels] and
    [nullptr] to [biquad_filter].  [o] is what the base classes build. *)
Definition new_effect (channels : Z) (o : object_state)
  : GlobalEffect (float := float) (BiquadFilter := BiquadFilter) :=
  mkGlobalEffect (replicate (Z.to_nat (BLOCK_SIZE * MAX_CHANNELS)) float_zero)
    channels 0 0 None o.

(** Between two runs the router writes into the input bus, through the
    pointer [&input_buffer[0]] that the constructor hands to [RouteInput]. *)
Definition set_input_buffer (buffer : list float)
    (e : GlobalEffect (float := float) (BiquadFilter := BiquadFilter)
           (object_state := object_state))
  : GlobalEffect :=
  mkGlobalEffect buffer (channels e) (time_in_blocks e) (last_channels e)
    (biquad_filter e) (object e).

End global_effect_use.
End GlobalEffectUse.

(** ** More concrete rings and effects *)
Module MoreExamples.
Import AudioRing AudioRingUse GlobalEffectRun.
Local Open Scope Z_scope.

(** A ring of capacity 6 that buffers three samples, [15], [16] and [11],
    around the end of its array, with nothing pending on either side. *)
Definition half_full_ring : AudioRingBase Z :=
  mkAudioRingBase [11; 12; 13; 14; 15; 16] 1 4 3 0 0 false.

(** The same ring after [beginWrite(3)]: a write of three samples is
    pending. *)
Definition writing_ring : AudioRingBase Z :=
  mkAudioRingBase [11; 12; 13; 14; 15; 16] 1 4 3 3 0 false.

(** An empty ring of capacity 6 whose pointers stand at 4: a write of
    more than two samples wraps. *)
Definition drained_ring : AudioRingBase Z :=
  mkAudioRingBase [11; 12; 13; 14; 15; 16] 4 4 0 0 0 false.

(** A ring of capacity 6 used in blocks of two samples: one block is
    buffered, at index 4. *)
Definition block_ring : AudioRingBase Z :=
  mkAudioRingBase [11; 12; 13; 14; 15; 16] 0 4 2 0 0 false.

(** A ring of capacity 6 that buffers two samples, [14] and [15]; a write
    of more than one sample wraps. *)
Definition nearly_wrapped_ring : AudioRingBase Z :=
  mkAudioRingBase [11; 12; 13; 14; 15; 16] 5 3 2 0 0 false.

(** Whole blocks of two samples on a ring of capacity 6. *)
Definition block_session : list (transaction (ELEM_T := Z)) :=
  [ WriteTx 2 false [1; 2];
    WriteTx 2 false [3; 4];
    ReadTx 2 false;
    WriteTx 2 false [5; 6];
    WriteTx 2 false [7; 8] ].

(** A writer and a reader at work together on a ring of capacity 4.  The
    writer commits its first three samples in two chunks while the reader
    already holds the first two; its next write wraps and lands on the
    element the reader has just given back. *)
Definition schedule : list (AudioRingUse.call (ELEM_T := Z)) :=
  [ WriterBegin 3 false;
    ReaderBegin 1 false;
    WriterStore [1; 2; 3];
    WriterEnd 2;
    ReaderBegin 2 false;
    WriterEnd 1;
    ReaderLoad;
    ReaderEnd 1;
    WriterBegin 2 true;
    WriterStore [4; 5];
    ReaderEnd 1;
    WriterEnd 2 ].

(** An effect without channels. *)
Definition silent_effect : GlobalEffect (float := Z) (BiquadFilter := unit) (object_state := unit) :=
  mkGlobalEffect [1; 2; 3; 4] 0 7 0 None ().

End MoreExamples.

(** * Proofs *)

Module SizeTFacts.
Import SizeT.
Local Open Scope Z_scope.

Lemma modulus_pos : 0 < modulus.
Proof. reflexivity. Qed.

Lemma modulus_ptrdiff : modulus = 2 * ptrdiff_max + 2.
Proof. reflexivity. Qed.

Lemma wrap_small x : in_range x → wrap x = x.
Proof. intros Hx. unfold wrap. now apply Z.mod_small. Qed.

Lemma add_small x y : in_range (x + y) → add x y = x + y.
Proof. apply wrap_small. Qed.

Lemma sub_small x y : in_range (x - y) → sub x y = x - y.
Proof. apply wrap_small. Qed.

(** Below twice the modulus, [%] subtracts at most once. *)
Lemma mod_once x s : 0 ≤ x < 2 * s → x `mod` s = if x <? s then x else x - s.
Proof.
  intros Hx. destruct (Z.ltb_spec x s) as [Hlt | Hge].
  - apply Z.mod_small. lia.
  - symmetry. apply (Z.mod_unique_pos x s 1 (x - s)); lia.
Qed.

End SizeTFacts.

Module AudioRingProofs.
Import SizeT SizeTFacts AudioRing.
Local Open Scope Z_scope.

(** Turn every comparison of the goal and the context into a case. *)
Ltac cases_on_tests :=
  repeat match goal with
  | |- context [?a =? ?b] => destruct (Z.eqb_spec a b)
  | |- context [?a <=? ?b] => destruct (Z.leb_spec a b)
  | |- context [?a <? ?b] => destruct (Z.ltb_spec a b)
  | H : context [?a =? ?b] |- _ => destruct (Z.eqb_spec a b)
  | H : context [?a <=? ?b] |- _ => destruct (Z.leb_spec a b)
  | H : context [?a <? ?b] |- _ => destruct (Z.ltb_spec a b)
  end.

(** Remove the wrap-around of an addition or subtraction that stays in
    range. *)
Ltac no_wrap :=
  pose proof modulus_ptrdiff;
  repeat first
    [ rewrite sub_small in * by (unfold in_range; lia)
    | rewrite add_small in * by (unfold in_range; lia) ].

(** *** Windows of an array that wrap around its end *)

Section wrapped_lists.
Context {A : Type}.
Local Open Scope nat_scope.
Implicit Types d xs : list A.

(** Position [k] of the window that starts at [p] and wraps. *)
Lemma lookup_wrapped d p a k :
  p < length d → a ≤ length d → k < a →
  take a (drop p (d ++ d)) !! k
  = d !! (if decide (p + k < length d) then p + k else p + k - length d).
Proof.
  intros Hp Ha Hk. rewrite lookup_take_lt by lia. rewrite lookup_drop.
  case_decide.
  - now rewrite lookup_app_l by lia.
  - now rewrite lookup_app_r by lia.
Qed.

Lemma length_wrapped d p a :
  p < length d → a ≤ length d → length (take a (drop p (d ++ d))) = a.
Proof.
  intros Hp Ha. rewrite length_take, length_drop, length_app. lia.
Qed.

(** The array after the writer's two copies. *)
Lemma lookup_stores d p xs j :
  p < length d → length xs ≤ length d → j < length d →
  list_inserts 0 (drop (length d - p) xs)
    (list_inserts p (take (length d - p) xs) d) !! j
  = if decide (p ≤ j < p + length xs) then xs !! (j - p)
    else if decide (j + length d < p + length xs) then xs !! (j + length d - p)
    else d !! j.
Proof.
  intros Hp Hxs Hj.
  destruct (decide (j + length d < p + length xs)) as [Hwrap | Hwrap].
  - rewrite list_lookup_inserts
      by (rewrite ?length_inserts, ?length_drop; lia).
    rewrite lookup_drop. rewrite decide_False by lia. f_equal. lia.
  - rewrite list_lookup_inserts_ge by (rewrite length_drop; lia).
    destruct (decide (p ≤ j < p + length xs)) as [Hin | Hout].
    + rewrite list_lookup_inserts by (rewrite ?length_take; lia).
      now rewrite lookup_take_lt by lia.
    + destruct (decide (j < p)).
      * now rewrite list_lookup_inserts_lt by lia.
      * now rewrite list_lookup_inserts_ge by (rewrite length_take; lia).
Qed.

(** Committing [xs], stored from the write position on, appends [xs] to
    the window of buffered samples. *)
Lemma wrapped_append d rp sib xs :
  rp < length d → sib + length xs ≤ length d →
  let wp := if decide (rp + sib < length d) then rp + sib
            else rp + sib - length d in
  let d' := list_inserts 0 (drop (length d - wp) xs)
              (list_inserts wp (take (length d - wp) xs) d) in
  take (sib + length xs) (drop rp (d' ++ d'))
  = take sib (drop rp (d ++ d)) ++ xs.
Proof.
  intros Hrp Hfit wp d'.
  assert (Hlen : length d' = length d) by (unfold d'; now rewrite !length_inserts).
  assert (Hwp : wp < length d) by (unfold wp; case_decide; lia).
  apply list_eq. intros k.
  destruct (decide (k < sib + length xs)) as [Hk | Hk].
  - rewrite lookup_wrapped by lia. rewrite Hlen.
    unfold d'. rewrite lookup_stores by (try case_decide; lia).
    destruct (decide (k < sib)) as [Hold | Hnew].
    + rewrite lookup_app_l by (rewrite length_wrapped; lia).
      rewrite lookup_wrapped by lia.
      unfold wp. repeat case_decide; try lia; reflexivity.
    + rewrite lookup_app_r by (rewrite length_wrapped; lia).
      rewrite length_wrapped by lia.
      unfold wp. repeat case_decide; try lia; f_equal; lia.
  - rewrite lookup_take_ge by lia. symmetry. apply lookup_ge_None_2.
    rewrite length_app, length_wrapped by lia. lia.
Qed.

(** The reader's two copies are the first [a] samples of the window. *)
Lemma wrapped_loads d p a :
  p < length d → a ≤ length d →
  take (a `min` (length d - p)) (drop p d)
    ++ take (a - a `min` (length d - p)) d
  = take a (drop p (d ++ d)).
Proof.
  intros Hp Ha. rewrite drop_app_le by lia. rewrite take_app, length_drop.
  destruct (decide (a ≤ length d - p)).
  - rewrite Nat.min_l by lia. f_equal.
    replace (a - a) with 0 by lia. replace (a - (length d - p)) with 0 by lia.
    reflexivity.
  - rewrite Nat.min_r by lia. f_equal.
    rewrite !take_ge by (rewrite length_drop; lia). reflexivity.
Qed.

(** Consuming [a] samples splits the window. *)
Lemma wrapped_advance d p a sib :
  p < length d → a ≤ sib → sib ≤ length d →
  take sib (drop p (d ++ d))
  = take a (drop p (d ++ d))
    ++ take (sib - a)
         (drop (if decide (p + a < length d) then p + a else p + a - length d)
            (d ++ d)).
Proof.
  intros Hp Ha Hsib. apply list_eq. intros k.
  destruct (decide (k < sib)) as [Hk | Hk].
  - rewrite lookup_wrapped by lia.
    destruct (decide (k < a)).
    + rewrite lookup_app_l by (rewrite length_wrapped; lia).
      now rewrite lookup_wrapped by lia.
    + rewrite lookup_app_r by (rewrite length_wrapped; lia).
      rewrite length_wrapped by lia.
      rewrite lookup_wrapped by (try case_decide; lia).
      repeat case_decide; try lia; f_equal; lia.
  - rewrite lookup_take_ge by lia. symmetry. apply lookup_ge_None_2.
    rewrite length_app, !length_wrapped by (try case_decide; lia). lia.
Qed.

End wrapped_lists.

Section ring_facts.
Context {ELEM_T : Type}.
Implicit Types r : AudioRingBase ELEM_T.

Lemma ring_wfb_spec r : ring_wfb r = true ↔ ring_wf r.
Proof.
  unfold ring_wfb.
  rewrite !andb_true_iff, !Z.ltb_lt, !Z.leb_le, Z.eqb_eq.
  split.
  - intros H. constructor; lia.
  - intros []. lia.
Qed.


(** *** [beginRead]: underflow *)

(** C2.  A request [0 < requested <= size()] for more samples than the
    buffer holds, with [maxAvailable = false], returns
    [(0, nullptr, 0, nullptr)] and leaves every member of the ring as it
    was: the read pointer, the counter and the pending read size among
    them.  The call only loads the counter. *)
Theorem beginRead_underflow r requested :
  0 < requested ≤ size r →
  samples_in_buffer r < requested →
  beginRead r requested false
  = Returns ((0, None, 0, None), r, [AtomicLoad memory_order_acquire]).
Proof.
  intros Hreq Hfew. unfold beginRead. cbn.
  cases_on_tests; try lia; reflexivity.
Qed.

(** C9, as the code has it.  With [maxAvailable = true], a request
    [requested <= size()] on a ring whose counter is [0] returns
    [(0, nullptr, 0, nullptr)]: null pointers, not a valid pointer with a
    zero length.  The ring is left as it was. *)
Theorem beginRead_empty_max_available r requested :
  requested ≤ size r →
  samples_in_buffer r = 0 →
  beginRead r requested true
  = Returns ((0, None, 0, None), r, [AtomicLoad memory_order_acquire]).
Proof.
  intros Hreq Hempty. unfold beginRead. cbn. rewrite Hempty.
  cases_on_tests; try lia; reflexivity.
Qed.

(** *** [endRead] *)

(** C3, as the code has it.  With [amount <= pending_read_size],
    [endRead(amount)] moves the read pointer forward by [amount] modulo
    [size()], takes exactly [amount] off the counter by a [fetch_sub] with
    release ordering, takes [amount] off the pending read size, and then
    signals [read_end_event]; nothing else changes. *)
Theorem endRead_commits r amount :
  ring_wf r →
  0 ≤ amount ≤ pending_read_size r →
  ∃ r',
    endRead r amount
    = Returns (r', [AtomicFetchSub amount memory_order_release; EventSignal])
    ∧ read_pointer r' = (read_pointer r + amount) `mod` size r
    ∧ samples_in_buffer r' = samples_in_buffer r - amount
    ∧ pending_read_size r' = pending_read_size r - amount
    ∧ read_end_event r' = true
    ∧ write_pointer r' = write_pointer r
    ∧ pending_write_size r' = pending_write_size r
    ∧ data_provider r' = data_provider r.
Proof.
  intros [] Hamount. unfold endRead.
  destruct (Z.leb_spec amount (pending_read_size r)); [| lia]. cbn.
  eexists. split; [reflexivity |]. cbn. no_wrap. repeat split.
Qed.

(** *** The regions of [beginWrite] and [beginRead] *)

(** C4.  A [beginWrite] that returns, and a [beginRead] that returns a
    non-null first pointer, hand out [len1 + len2 = a] samples, where [a]
    is the request when [maxAvailable = false] and all the free space
    (write side) or all the buffered samples (read side) when it is
    [true]; the second region is non-empty exactly when [a] exceeds the
    distance from the pointer to the end of the array. *)
Theorem regions_split r requested maxAvailable len1 p1 len2 p2 r' es :
  ring_wf r →
  (beginWrite r requested maxAvailable = Returns ((len1, p1, len2, p2), r', es) →
   let a := if maxAvailable then size r - samples_in_buffer r else requested in
   len1 + len2 = a ∧ (0 < len2 ↔ size r - write_pointer r < a))
  ∧ (beginRead r requested maxAvailable = Returns ((len1, p1, len2, p2), r', es) →
     p1 ≠ None →
     let a := if maxAvailable then samples_in_buffer r else requested in
     len1 + len2 = a ∧ (0 < len2 ↔ size r - read_pointer r < a)).
Proof.
  intros []. split.
  - intros H a. subst a. unfold beginWrite in H.
    destruct maxAvailable; cbn in H; no_wrap; cases_on_tests;
      try discriminate; inversion H; subst; no_wrap; lia.
  - intros H Hp1 a. subst a. unfold beginRead in H.
    destruct maxAvailable; cbn in H; no_wrap; cases_on_tests;
      try discriminate; inversion H; subst; try congruence; no_wrap; lia.
Qed.

(** C10.  The regions that [beginWrite] and [beginRead] return lie inside
    the backing array of length [size()]: the first starts at the write
    (read) pointer and is no longer than the rest of the array from there,
    the second starts at index 0, and the two together are no longer than
    the array, so every index reached through either pointer is in bounds.
    A null pointer comes with length 0. *)
Theorem regions_in_bounds r requested maxAvailable len1 p1 len2 p2 r' es :
  ring_wf r →
  0 ≤ requested →
  (beginWrite r requested maxAvailable = Returns ((len1, p1, len2, p2), r', es) →
   p1 = Some (write_pointer r) ∧ 0 ≤ len1 ≤ size r - write_pointer r
   ∧ (p2 = Some 0 ∨ p2 = None ∧ len2 = 0) ∧ 0 ≤ len2 ≤ size r
   ∧ len1 + len2 ≤ size r
   ∧ region_in_bounds r len1 p1 ∧ region_in_bounds r len2 p2)
  ∧ (beginRead r requested maxAvailable = Returns ((len1, p1, len2, p2), r', es) →
     (p1 = Some (read_pointer r) ∨ p1 = None ∧ len1 = 0)
     ∧ 0 ≤ len1 ≤ size r - read_pointer r
     ∧ (p2 = Some 0 ∨ p2 = None ∧ len2 = 0) ∧ 0 ≤ len2 ≤ size r
     ∧ len1 + len2 ≤ size r
     ∧ region_in_bounds r len1 p1 ∧ region_in_bounds r len2 p2).
Proof.
  intros [] Hreq. unfold region_in_bounds. split.
  - intros H. unfold beginWrite in H.
    destruct maxAvailable; cbn in H; no_wrap; cases_on_tests;
      try discriminate; inversion H; subst; no_wrap.
    all: repeat split; try lia.
    all: try (left; reflexivity).
    all: try (right; split; [reflexivity | lia]).
    all: intros i Hi; try lia; eexists; split; [reflexivity | lia].
  - intros H. unfold beginRead in H.
    destruct maxAvailable; cbn in H; no_wrap; cases_on_tests;
      try discriminate; inversion H; subst; no_wrap.
    all: repeat split; try lia.
    all: try (left; reflexivity).
    all: try (right; split; [reflexivity | lia]).
    all: intros i Hi; try lia; eexists; split; [reflexivity | lia].
Qed.

(** *** The representation invariant is kept *)

Lemma beginWrite_wf r requested maxAvailable rg r' es :
  ring_wf r → 0 ≤ requested →
  beginWrite r requested maxAvailable = Returns (rg, r', es) → ring_wf r'.
Proof.
  intros [] Hreq H. unfold beginWrite in H.
  destruct maxAvailable; cbn in H; no_wrap; cases_on_tests;
    try discriminate; inversion H; subst; constructor;
    unfold size in *; cbn; lia.
Qed.

Lemma beginRead_wf r requested maxAvailable rg r' es :
  ring_wf r → 0 ≤ requested →
  beginRead r requested maxAvailable = Returns (rg, r', es) → ring_wf r'.
Proof.
  intros Hwf Hreq H. pose proof Hwf as []. unfold beginRead in H.
  destruct maxAvailable; cbn in H; no_wrap; cases_on_tests;
    try discriminate; inversion H; subst; try assumption;
    constructor; unfold size in *; cbn; lia.
Qed.

Lemma endWrite_wf r amount r' es :
  ring_wf r → 0 ≤ amount →
  endWrite r amount = Returns (r', es) → ring_wf r'.
Proof.
  intros [] Hamount H. unfold endWrite in H.
  destruct (Z.leb_spec amount (pending_write_size r)); [| discriminate].
  cbn in H. inversion H; subst; clear H. no_wrap.
  constructor; unfold size in *; cbn; try lia.
  - apply Z.mod_pos_bound. lia.
  - rewrite wf_pointers0, Zplus_mod_idemp_l. f_equal. lia.
Qed.

Lemma endRead_wf r amount r' es :
  ring_wf r → 0 ≤ amount →
  endRead r amount = Returns (r', es) → ring_wf r'.
Proof.
  intros [] Hamount H. unfold endRead in H.
  destruct (Z.leb_spec amount (pending_read_size r)); [| discriminate].
  cbn in H. inversion H; subst; clear H. no_wrap.
  constructor; unfold size in *; cbn; try lia.
  - apply Z.mod_pos_bound. lia.
  - rewrite wf_pointers0, Zplus_mod_idemp_l. f_equal. lia.
Qed.

(** *** What the two calls of a transaction hand to its copy *)

Lemma beginWrite_returns r requested maxAvailable len1 p1 len2 p2 r1 es :
  ring_wf r →
  beginWrite r requested maxAvailable = Returns ((len1, p1, len2, p2), r1, es) →
  let a := len1 + len2 in
  r1 = set_pending_write_size a r
  ∧ a ≤ size r - samples_in_buffer r
  ∧ p1 = Some (write_pointer r)
  ∧ len1 = Z.min (size r - write_pointer r) a
  ∧ (p2 = Some 0 ∨ p2 = None ∧ len2 = 0).
Proof.
  intros [] H a. subst a. unfold beginWrite in H.
  destruct maxAvailable; cbn in H; no_wrap; cases_on_tests;
    try discriminate; inversion H; subst; no_wrap.
  all: repeat split; try lia.
  all: try (f_equal; lia).
  all: try (left; reflexivity).
  all: right; split; [reflexivity | lia].
Qed.

Lemma beginRead_returns r requested maxAvailable len1 p1 len2 p2 r1 es :
  ring_wf r → 0 ≤ requested →
  beginRead r requested maxAvailable = Returns ((len1, p1, len2, p2), r1, es) →
  (len1 = 0 ∧ p1 = None ∧ len2 = 0 ∧ p2 = None ∧ r1 = r)
  ∨ (let a := len1 + len2 in
     0 < a ≤ samples_in_buffer r
     ∧ r1 = set_pending_read_size a r
     ∧ p1 = Some (read_pointer r)
     ∧ len1 = Z.min a (size r - read_pointer r)
     ∧ (p2 = Some 0 ∨ p2 = None ∧ len2 = 0)).
Proof.
  intros [] Hreq H. unfold beginRead in H.
  destruct maxAvailable; cbn in H; no_wrap; cases_on_tests;
    try discriminate; inversion H; subst; no_wrap.
  all: try (left; repeat split; reflexivity).
  all: right; cbn.
  all: repeat split; try lia.
  all: try (f_equal; lia).
  all: try (left; reflexivity).
  all: right; split; [reflexivity | lia].
Qed.

(** The writer's two copies, whatever the split, store [xs] from the
    write pointer on and around the end of the array. *)
Lemma stores_wrapped (d : list ELEM_T) wp a len1 len2 p2 xs :
  0 ≤ wp < Z.of_nat (length d) →
  Z.of_nat (length xs) ≤ a →
  len1 = Z.min (Z.of_nat (length d) - wp) a →
  len2 = a - len1 →
  p2 = Some 0 ∨ p2 = None ∧ len2 = 0 →
  store_region (store_region d (Some wp) (take (Z.to_nat len1) xs)) p2
    (take (Z.to_nat len2) (drop (Z.to_nat len1) xs))
  = list_inserts 0 (drop (length d - Z.to_nat wp) xs)
      (list_inserts (Z.to_nat wp) (take (length d - Z.to_nat wp) xs) d).
Proof.
  intros Hwp Hxs Hlen1 Hlen2 Hp2.
  destruct (Z.le_gt_cases a (Z.of_nat (length d) - wp)) as [Hfits | Hwraps].
  - rewrite Z.min_r in Hlen1 by lia. subst len1.
    rewrite (drop_ge xs (Z.to_nat a)) by lia.
    rewrite (drop_ge xs (length d - Z.to_nat wp)) by lia.
    rewrite (take_ge xs (Z.to_nat a)) by lia.
    rewrite (take_ge xs (length d - Z.to_nat wp)) by lia.
    rewrite take_nil.
    destruct Hp2 as [-> | [-> _]]; reflexivity.
  - rewrite Z.min_l in Hlen1 by lia. subst len1.
    destruct Hp2 as [-> | [_ ?]]; [| lia]. cbn.
    replace (Z.to_nat (Z.of_nat (length d) - wp)) with (length d - Z.to_nat wp)%nat by lia.
    rewrite (take_ge (drop _ _)) by (rewrite length_drop; lia).
    reflexivity.
Qed.

(** The reader's two copies are the first [a] buffered samples. *)
Lemma loads_wrapped (d : list ELEM_T) rp a len1 len2 p2 :
  0 ≤ rp < Z.of_nat (length d) →
  0 ≤ a ≤ Z.of_nat (length d) →
  len1 = Z.min a (Z.of_nat (length d) - rp) →
  len2 = a - len1 →
  p2 = Some 0 ∨ p2 = None ∧ len2 = 0 →
  load_region d len1 (Some rp) ++ load_region d len2 p2
  = take (Z.to_nat a) (drop (Z.to_nat rp) (d ++ d)).
Proof.
  intros Hrp Ha Hlen1 Hlen2 Hp2.
  rewrite <- wrapped_loads by lia. unfold load_region.
  replace (Z.to_nat len1) with (Z.to_nat a `min` (length d - Z.to_nat rp))%nat by lia.
  f_equal. destruct Hp2 as [-> | [-> Hzero]].
  - cbn. f_equal. lia.
  - symmetry. replace (Z.to_nat a - _)%nat with 0%nat by lia. reflexivity.
Qed.

(** *** One transaction *)

Lemma write_transaction_step r requested maxAvailable xs r' :
  ring_wf r →
  write_transaction r requested maxAvailable xs = Returns r' →
  ring_wf r'
  ∧ contents r' = contents r ++ xs
  ∧ pending_read_size r' = pending_read_size r.
Proof.
  intros Hwf H. unfold write_transaction in H.
  destruct (beginWrite r requested maxAvailable)
    as [[[[[[len1 p1] len2] p2] r1] es] | |] eqn:Hbegin; try discriminate.
  apply beginWrite_returns in Hbegin as (-> & Hspace & -> & Hlen1 & Hp2);
    [| assumption].
  cbn in H. unfold endWrite in H. cbn in H.
  destruct (Z.leb_spec (Z.of_nat (length xs)) (len1 + len2)); [| discriminate].
  cbn in H. inversion H; subst r'; clear H.
  destruct Hwf. unfold size in *.
  pose proof (stores_wrapped (data_provider r) (write_pointer r)
                (len1 + len2) len1 len2 p2 xs) as Hstores.
  cbn [store_region] in Hstores.
  rewrite Hstores by (assumption || lia). clear Hstores.
  set (d := data_provider r) in *.
  set (wp := Z.to_nat (write_pointer r)).
  assert (Hwp : wp = if decide (Z.to_nat (read_pointer r)
                                + Z.to_nat (samples_in_buffer r) < length d)%nat
                     then (Z.to_nat (read_pointer r) + Z.to_nat (samples_in_buffer r))%nat
                     else (Z.to_nat (read_pointer r) + Z.to_nat (samples_in_buffer r)
                           - length d)%nat).
  { unfold wp. rewrite wf_pointers0, mod_once by lia.
    case_decide; cases_on_tests; lia. }
  no_wrap. split; [| split; [| reflexivity]].
  - constructor; unfold size; cbn; rewrite ?length_inserts; fold d; try lia.
    + apply Z.mod_pos_bound. lia.
    + rewrite wf_pointers0, Zplus_mod_idemp_l. f_equal. lia.
  - unfold contents. cbn.
    replace (Z.to_nat (samples_in_buffer r + Z.of_nat (length xs)))
      with (Z.to_nat (samples_in_buffer r) + length xs)%nat by lia.
    rewrite Hwp. apply wrapped_append; subst d; lia.
Qed.

Lemma read_transaction_step r requested maxAvailable xs r' :
  ring_wf r → 0 ≤ requested →
  pending_read_size r = 0 →
  read_transaction r requested maxAvailable = Returns (xs, r') →
  ring_wf r'
  ∧ contents r = xs ++ contents r'
  ∧ pending_read_size r' = 0.
Proof.
  intros Hwf Hreq Hpending H. unfold read_transaction in H.
  destruct (beginRead r requested maxAvailable)
    as [[[[[[len1 p1] len2] p2] r1] es] | |] eqn:Hbegin; try discriminate.
  apply beginRead_returns in Hbegin; [| assumption ..].
  cbn in H. unfold endRead_all, endRead in H.
  rewrite Z.leb_refl in H. cbn in H. inversion H; subst xs r'; clear H.
  destruct Hwf. unfold size in *.
  destruct Hbegin as [(-> & -> & -> & -> & ->) | (Ha & -> & -> & Hlen1 & Hp2)].
  - (* underflow: nothing is obtained and nothing is consumed *)
    rewrite Hpending. no_wrap. rewrite !Z.add_0_r, !Z.sub_0_r.
    rewrite (Z.mod_small (read_pointer r)) by lia.
    split; [| split; [| reflexivity]].
    + constructor; unfold size; cbn; lia.
    + reflexivity.
  - cbn in *. no_wrap.
    pose proof (loads_wrapped (data_provider r) (read_pointer r)
                  (len1 + len2) len1 len2 p2) as Hloads.
    cbn [load_region] in Hloads.
    rewrite Hloads by (assumption || lia). clear Hloads.
    set (d := data_provider r) in *.
    split; [| split; [| lia]].
    + constructor; unfold size; cbn; fold d; try lia.
      * apply Z.mod_pos_bound. lia.
      * rewrite wf_pointers0, Zplus_mod_idemp_l. f_equal. lia.
    + unfold contents. cbn. fold d.
      rewrite (wrapped_advance d _ (Z.to_nat (len1 + len2))) by (subst d; lia).
      f_equal. f_equal; [lia |]. f_equal.
      rewrite mod_once by lia. case_decide; cases_on_tests; lia.
Qed.

(** A transaction completes when its calls are within what the asserts
    and the space allow. *)
Lemma write_transaction_returns r requested maxAvailable xs :
  ring_wf r →
  0 ≤ requested ≤ size r - samples_in_buffer r →
  maxAvailable = true ∨ requested ≠ 0 →
  Z.of_nat (length xs)
  ≤ (if maxAvailable then size r - samples_in_buffer r else requested) →
  ∃ r', write_transaction r requested maxAvailable xs = Returns r'.
Proof.
  intros [] Hreq Hnonzero Hxs. unfold write_transaction, beginWrite.
  destruct maxAvailable; cbn; no_wrap; cases_on_tests; try lia;
    try (destruct Hnonzero; congruence); cbn;
    unfold endWrite; cbn; cases_on_tests; try lia; cbn; eexists; reflexivity.
Qed.

Lemma read_transaction_returns r requested maxAvailable :
  0 ≤ requested ≤ size r →
  maxAvailable = true ∨ requested ≠ 0 →
  ∃ xs r', read_transaction r requested maxAvailable = Returns (xs, r').
Proof.
  intros Hreq Hnonzero. unfold read_transaction, beginRead.
  destruct maxAvailable; cbn; cases_on_tests; try lia;
    try (destruct Hnonzero; congruence); cbn;
    unfold endRead_all, endRead; cbn; rewrite Z.leb_refl; cbn;
    eexists _, _; reflexivity.
Qed.

(** Any run keeps the samples in order: what was buffered plus what the
    writes committed is what the reads obtained plus what is buffered. *)
Lemma run_conserves txs : ∀ r h r',
  ring_wf r → pending_read_size r = 0 →
  Forall transaction_in_range txs →
  run txs r = Returns (h, r') →
  ring_wf r' ∧ pending_read_size r' = 0
  ∧ contents r ++ committed h = obtained h ++ contents r'.
Proof.
  induction txs as [| tx txs IH]; intros r h r' Hwf Hpending Hrange H.
  - cbn in H. inversion H; subst. cbn. now rewrite app_nil_r.
  - apply Forall_cons in Hrange as [Htx Hrange].
    destruct tx as [requested maxAvailable xs | requested maxAvailable]; cbn in H.
    + destruct (write_transaction r requested maxAvailable xs) as [r1 | |] eqn:Hw;
        try discriminate.
      apply write_transaction_step in Hw as (Hwf1 & Hcontents & Hp); [| assumption].
      cbn in H. destruct (run txs r1) as [[h0 r2] | |] eqn:Hrun; try discriminate.
      cbn in H. inversion H; subst; clear H.
      apply IH in Hrun as (? & ? & Heq); [| assumption | congruence | assumption].
      cbn. split; [assumption | split; [assumption |]].
      rewrite <- Heq, Hcontents. now rewrite <- app_assoc.
    + destruct (read_transaction r requested maxAvailable) as [[xs r1] | |] eqn:Hr;
        try discriminate.
      apply read_transaction_step in Hr as (Hwf1 & Hcontents & Hp);
        [| assumption | apply Htx | assumption].
      cbn in H. destruct (run txs r1) as [[h0 r2] | |] eqn:Hrun; try discriminate.
      cbn in H. inversion H; subst; clear H.
      apply IH in Hrun as (? & ? & Heq); [| assumption ..].
      cbn. split; [assumption | split; [assumption |]].
      rewrite Hcontents, <- !app_assoc. now rewrite Heq.
Qed.

(** C1.  On every ring that starts out empty (as its constructor leaves
    it, or emptied at any position), every sequence of write transactions
    ([beginWrite], the copy of the samples into the first region and then
    the second, [endWrite] of their number) and read transactions
    ([beginRead], the copy out of the two regions in order, [endRead])
    that runs to its end is first-in first-out: the samples the reads
    obtained, concatenated, are a prefix of the samples the writes
    committed, concatenated, and the rest of them is what the ring still
    buffers.  A read that reports underflow obtains no samples and
    consumes none. *)
Theorem fifo_order r txs h r' :
  ring_wf r →
  samples_in_buffer r = 0 →
  Forall transaction_in_range txs →
  run txs r = Returns (h, r') →
  obtained h `prefix_of` committed h
  ∧ committed h = obtained h ++ contents r'.
Proof.
  intros Hwf Hempty Hrange Hrun.
  assert (Hpending : pending_read_size r = 0) by (destruct Hwf; lia).
  apply run_conserves in Hrun as (_ & _ & Heq); [| assumption ..].
  unfold contents in Heq at 1. rewrite Hempty in Heq. cbn in Heq.
  split; [| assumption]. exists (contents r'). assumption.
Qed.

End ring_facts.

(** *** The theorems at concrete rings *)

Import Examples.

Lemma wrapped_ring_wf : ring_wf wrapped_ring.
Proof. apply ring_wfb_spec. reflexivity. Qed.

Lemma reading_ring_wf : ring_wf reading_ring.
Proof. apply ring_wfb_spec. reflexivity. Qed.

Lemma session_in_range : Forall transaction_in_range session.
Proof. repeat constructor; cbn; unfold in_range; try lia; reflexivity. Qed.

(** The session of [Examples]: seven of the eight committed samples come
    out, in order, and the eighth is still buffered. *)
Lemma fifo_order_witness :
  ∃ h r',
    run session (new_ring 0 4) = Returns (h, r')
    ∧ committed h = [1; 2; 3; 4; 5; 6; 7; 8]
    ∧ obtained h = [1; 2; 3; 4; 5; 6; 7]
    ∧ obtained h `prefix_of` committed h
    ∧ committed h = obtained h ++ contents r'.
Proof.
  eexists _, _. split; [vm_compute; reflexivity |].
  split; [reflexivity |]. split; [reflexivity |].
  apply (fifo_order (new_ring 0 4) session).
  - apply ring_wfb_spec. reflexivity.
  - reflexivity.
  - exact session_in_range.
  - vm_compute. reflexivity.
Defined.

(** Three samples asked of a ring that buffers two. *)
Lemma beginRead_underflow_witness :
  beginRead wrapped_ring 3 false
  = Returns ((0, None, 0, None), wrapped_ring, [AtomicLoad memory_order_acquire]).
Proof.
  apply (beginRead_underflow wrapped_ring 3).
  - vm_compute. split; [reflexivity | discriminate].
  - reflexivity.
Defined.

(** Any request within the capacity on the new, empty ring. *)
Lemma beginRead_empty_max_available_witness :
  beginRead (new_ring 0 4) 4 true
  = Returns ((0, None, 0, None), new_ring 0 4, [AtomicLoad memory_order_acquire]).
Proof.
  apply (beginRead_empty_max_available (new_ring 0 4) 4).
  - vm_compute. discriminate.
  - reflexivity.
Defined.

(** C9 as stated fails for a request above the capacity: the assertion
    [requested <= size()] ends the call before the counter is read. *)
Lemma beginRead_empty_oversized_request :
  beginRead (new_ring 0 4) 5 true = AssertionFailed
  ∧ ¬ empty_read_returns_null (new_ring 0 4) 5.
Proof.
  split; [reflexivity |].
  intros H. destruct (H eq_refl) as (r' & es & Hreturns).
  vm_compute in Hreturns. discriminate Hreturns.
Qed.

(** Both pending samples are committed: the read pointer wraps from 3
    to 1. *)
Lemma endRead_commits_witness :
  ∃ r',
    endRead reading_ring 2
    = Returns (r', [AtomicFetchSub 2 memory_order_release; EventSignal])
    ∧ read_pointer r' = 1
    ∧ samples_in_buffer r' = 0
    ∧ pending_read_size r' = 0
    ∧ read_end_event r' = true.
Proof.
  destruct (endRead_commits reading_ring 2 reading_ring_wf)
    as (r' & Hreturns & Hrp & Hsib & Hpending & Hevent & _).
  - vm_compute. split; discriminate.
  - exists r'. repeat split; assumption.
Defined.

(** C3 as stated fails: the decrement in [endRead] is a release, and no
    acquire is among the effects of the call. *)
Lemma endRead_decrement_is_not_acquire :
  endRead reading_ring 2
  = Returns (mkAudioRingBase [7; 8; 9; 10] 1 1 0 0 0 true,
             [AtomicFetchSub 2 memory_order_release; EventSignal])
  ∧ ¬ endRead_decrement_acquires reading_ring 2.
Proof.
  split; [reflexivity |].
  intros H. specialize (H _ _ eq_refl).
  apply elem_of_cons in H as [H | H]; [discriminate H |].
  apply elem_of_cons in H as [H | H]; [discriminate H |].
  apply elem_of_nil in H. exact H.
Qed.

(** A write of the two free samples fits before the end of the array; a
    read of the two buffered samples wraps. *)
Lemma regions_split_witness :
  (2 + 0 = 2 ∧ (0 < 0 ↔ size wrapped_ring - write_pointer wrapped_ring < 2))
  ∧ (1 + 1 = 2 ∧ (0 < 1 ↔ size wrapped_ring - read_pointer wrapped_ring < 2)).
Proof.
  split.
  - apply (proj1 (regions_split wrapped_ring 2 false 2 (Some 1) 0 None
                    (set_pending_write_size 2 wrapped_ring)
                    [AtomicLoad memory_order_relaxed] wrapped_ring_wf)).
    reflexivity.
  - apply (proj2 (regions_split wrapped_ring 2 false 1 (Some 3) 1 (Some 0)
                    (set_pending_read_size 2 wrapped_ring)
                    [AtomicLoad memory_order_acquire] wrapped_ring_wf)).
    + reflexivity.
    + discriminate.
Defined.

Lemma regions_in_bounds_witness :
  region_in_bounds wrapped_ring 1 (Some 3)
  ∧ region_in_bounds wrapped_ring 1 (Some 0)
  ∧ 1 + 1 ≤ size wrapped_ring.
Proof.
  destruct (proj2 (regions_in_bounds wrapped_ring 2 false 1 (Some 3) 1 (Some 0)
                     (set_pending_read_size 2 wrapped_ring)
                     [AtomicLoad memory_order_acquire] wrapped_ring_wf
                     ltac:(lia)) eq_refl)
    as (_ & _ & _ & _ & Hsum & Hfirst & Hsecond).
  repeat split; assumption || apply Hfirst || apply Hsecond.
Defined.

End AudioRingProofs.

Module FilterPropertiesProofs.
Import FilterProperties.
Local Open Scope Z_scope.

Section filter_facts.
Context {double exception : Type}.
Context (double_zero double_one : double).
Context (double_div : double → double → double).
Context (SR : double).
Context (error_code : exception → positive).
Context (designAudioEqLowpass designAudioEqHighpass designAudioEqBandpass
  : double → double → exception + BiquadFilterDef (double := double)).

Local Abbreviation identity :=
  (syz_biquadDesignIdentity double_zero double_one error_code).
Local Abbreviation designer :=
  (designAudioEq designAudioEqLowpass designAudioEqHighpass designAudioEqBandpass).
Local Abbreviation entry_point :=
  (syz_biquadDesign double_div SR error_code
     designAudioEqLowpass designAudioEqHighpass designAudioEqBandpass).
Local Abbreviation lowpass :=
  (syz_biquadDesignLowpass double_div SR error_code designAudioEqLowpass).
Local Abbreviation highpass :=
  (syz_biquadDesignHighpass double_div SR error_code designAudioEqHighpass).
Local Abbreviation bandpass :=
  (syz_biquadDesignBandpass double_div SR error_code designAudioEqBandpass).

(** C6.  Through any non-null pointer, whatever the struct held,
    [syz_biquadDesignIdentity] returns 0 and leaves [b0 = 1],
    [b1 = b2 = a1 = a2 = 0] and [gain = 1] in it. *)
Theorem identity_design (c : syz_BiquadConfig) :
  syz_biquadDesignIdentity double_zero double_one error_code (Some c)
  = ApiReturns 0
      (Some {| b0 := double_one; b1 := double_zero; b2 := double_zero;
               a1 := double_zero; a2 := double_zero; gain := double_one |}).
Proof. reflexivity. Qed.

(** How a designing entry point ends, by how its designer ends and by
    the pointer it was given. *)
Lemma entry_point_cases k filter frequency q :
  entry_point k filter frequency q
  = match designer k (double_div frequency SR) q, filter with
    | inl e, _ => ApiReturns (Z.pos (error_code e)) filter
    | inr def, Some _ => ApiReturns 0 (Some (convertBiquadDef def))
    | inr _, None => ApiCrashes
    end.
Proof.
  destruct k; cbn;
    unfold syz_biquadDesignLowpass, syz_biquadDesignHighpass,
      syz_biquadDesignBandpass, SYZ_PROLOGUE_EPILOGUE, body_bind, call, store;
    match goal with |- context [?f (double_div frequency SR) q] =>
      destruct (f (double_div frequency SR) q) end;
    destruct filter; reflexivity.
Qed.

(** C7.  When [syz_biquadDesignLowpass], [syz_biquadDesignHighpass] or
    [syz_biquadDesignBandpass] returns a nonzero code, [*filter] holds
    what it held before the call. *)
Theorem error_leaves_filter k filter frequency q code filter' :
  syz_biquadDesign double_div SR error_code
    designAudioEqLowpass designAudioEqHighpass designAudioEqBandpass
    k filter frequency q
  = ApiReturns code filter' →
  code ≠ 0 →
  filter' = filter.
Proof.
  rewrite entry_point_cases. intros H Hcode.
  destruct (designer k _ q) as [e | def]; [| destruct filter];
    inversion H; subst; congruence.
Qed.

(** C8.  [syz_biquadDesignLowpass(out, frequency, q)] succeeds exactly
    when [designAudioEqLowpass], run at the normalised frequency
    [frequency / SR], returns a definition and [out] is not null, and it
    then stores [convertBiquadDef] of that definition;
    [syz_biquadDesignHighpass] and [syz_biquadDesignBandpass] do the same
    with their designers.  [convertBiquadDef] copies [num_coefs[0..2]] to
    [b0], [b1], [b2], [den_coefs[0..1]] to [a1], [a2] and the gain to
    [gain]. *)
Theorem design_stores_converted filter frequency q filter' :
  (syz_biquadDesignLowpass double_div SR error_code designAudioEqLowpass
      filter frequency q = ApiReturns 0 filter'
   ↔ ∃ c def,
       filter = Some c
       ∧ designAudioEqLowpass (double_div frequency SR) q = inr def
       ∧ filter' = Some (convertBiquadDef def))
  ∧ (syz_biquadDesignHighpass double_div SR error_code designAudioEqHighpass
        filter frequency q = ApiReturns 0 filter'
     ↔ ∃ c def,
         filter = Some c
         ∧ designAudioEqHighpass (double_div frequency SR) q = inr def
         ∧ filter' = Some (convertBiquadDef def))
  ∧ (syz_biquadDesignBandpass double_div SR error_code designAudioEqBandpass
        filter frequency q = ApiReturns 0 filter'
     ↔ ∃ c def,
         filter = Some c
         ∧ designAudioEqBandpass (double_div frequency SR) q = inr def
         ∧ filter' = Some (convertBiquadDef def))
  ∧ ∀ def : BiquadFilterDef (double := double),
      b0 (convertBiquadDef def) = num_coefs def !!! 0%fin
      ∧ b1 (convertBiquadDef def) = num_coefs def !!! 1%fin
      ∧ b2 (convertBiquadDef def) = num_coefs def !!! 2%fin
      ∧ a1 (convertBiquadDef def) = den_coefs def !!! 0%fin
      ∧ a2 (convertBiquadDef def) = den_coefs def !!! 1%fin
      ∧ gain (convertBiquadDef def) = def_gain def.
Proof.
  pose proof (λ k, entry_point_cases k filter frequency q) as Hcases.
  repeat split.
  1, 3, 5: intros H.
  4, 5, 6: intros (c & def & -> & Hdef & ->).
  - specialize (Hcases Lowpass). cbn in Hcases. rewrite Hcases in H.
    destruct (designAudioEqLowpass _ q) as [e | def]; [| destruct filter as [c |]];
      inversion H; subst. exists c, def. repeat split.
  - specialize (Hcases Highpass). cbn in Hcases. rewrite Hcases in H.
    destruct (designAudioEqHighpass _ q) as [e | def]; [| destruct filter as [c |]];
      inversion H; subst. exists c, def. repeat split.
  - specialize (Hcases Bandpass). cbn in Hcases. rewrite Hcases in H.
    destruct (designAudioEqBandpass _ q) as [e | def]; [| destruct filter as [c |]];
      inversion H; subst. exists c, def. repeat split.
  - specialize (Hcases Lowpass). cbn in Hcases. now rewrite Hcases, Hdef.
  - specialize (Hcases Highpass). cbn in Hcases. now rewrite Hcases, Hdef.
  - specialize (Hcases Bandpass). cbn in Hcases. now rewrite Hcases, Hdef.
Qed.

End filter_facts.

(** *** The theorems at concrete designers *)

Import Examples.

(** A low-pass designer that throws: the call reports code 1 and the
    struct still holds [some_config]. *)
Lemma error_leaves_filter_witness :
  ∃ code filter',
    syz_biquadDesignLowpass Z.div 44100 (λ _ : unit, 1%positive)
      throwing_designer (Some some_config) 440 1
    = ApiReturns code filter'
    ∧ code ≠ 0
    ∧ filter' = Some some_config.
Proof.
  eexists _, _. split; [reflexivity |]. split; [discriminate |].
  apply (error_leaves_filter Z.div 44100 (λ _ : unit, 1%positive)
           throwing_designer returning_designer returning_designer
           Lowpass (Some some_config) 440 1 1 (Some some_config)).
  - reflexivity.
  - discriminate.
Defined.

(** A high-pass designer that returns: 882 Hz at a sample rate of 441
    is the normalised frequency 2. *)
Example highpass_stores_converted :
  syz_biquadDesignHighpass Z.div 441 (λ _ : unit, 1%positive)
    returning_designer (Some some_config) 882 3
  = ApiReturns 0 (Some (mk_syz_BiquadConfig 2 3 5 (-1) 6 2)).
Proof. reflexivity. Qed.

End FilterPropertiesProofs.

Module GlobalEffectProofs.
Import GlobalEffectRun.
Local Open Scope Z_scope.

Section global_effect_facts.
Context {float syz_BiquadConfig BiquadFilter object_state : Type}.
Context (float_zero : float).
Context (BLOCK_SIZE MAX_CHANNELS : Z).
Context (createBiquadFilter : Z → BiquadFilter).
Context (configure : BiquadFilter → syz_BiquadConfig → BiquadFilter).
Context (processBlock : BiquadFilter → list float → bool → BiquadFilter * list float).
Context (acquireFilter : object_state → option syz_BiquadConfig * object_state).
Context (getGain : object_state → float).
Context (runEffect : object_state → Z → Z → list float → Z → list float → float →
                     object_state * list float * list float).

(** The constants of config.hpp: a block has frames, and the size of
    [input_buffer] is an [unsigned int]. *)
Hypothesis BLOCK_SIZE_pos : 0 < BLOCK_SIZE.
Hypothesis buffer_size_fits : BLOCK_SIZE * MAX_CHANNELS < uint_modulus.

(** A callee that is handed a pointer into an array cannot change the
    length of the array. *)
Hypothesis processBlock_in_place : ∀ f buffer add,
  length (processBlock f buffer add).2 = length buffer.
Hypothesis runEffect_in_place : ∀ o t ic input oc output g,
  length (runEffect o t ic input oc output g).1.2 = length input.

Local Abbreviation effect := (GlobalEffect (float := float)
  (BiquadFilter := BiquadFilter) (object_state := object_state)).
Local Abbreviation run_ :=
  (run float_zero BLOCK_SIZE createBiquadFilter configure processBlock
     acquireFilter getGain runEffect).
Local Abbreviation wf := (effect_wf BLOCK_SIZE MAX_CHANNELS).

Lemma std_fill_zeroes (a : list float) (last : Z) (v : float) :
  0 ≤ last ≤ Z.of_nat (length a) →
  std_fill a last v = Some (replicate (Z.to_nat last) v ++ drop (Z.to_nat last) a).
Proof.
  intros H. unfold std_fill.
  destruct (Z.leb_spec 0 last); [| lia].
  destruct (Z.leb_spec last (Z.of_nat (length a))); [| lia]. reflexivity.
Qed.

(** C5.  One call of [run] on an effect with [c > 0] channels: (1) the
    biquad filter, created or reused and configured when a new
    configuration is pending, processes the input bus in place; (2)
    [runEffect] reads the filtered input bus and writes the destination;
    (3) the first [c * BLOCK_SIZE] entries of the input bus are set to 0.
    The three calls come last and in this order, and when [run] returns
    every entry of the input bus that belongs to the [c] channels is 0. *)
Theorem run_filters_runs_zeroes (e : GlobalEffect) (out_channels : Z)
    (destination : list float) :
  effect_wf BLOCK_SIZE MAX_CHANNELS e →
  0 < channels e →
  ∃ filter filter' filtered object1 object2 processed destination' before e',
    processBlock filter (input_buffer e) false = (filter', filtered)
    ∧ runEffect object1 (time_in_blocks e) (channels e) filtered
        out_channels destination (getGain object1)
      = (object2, processed, destination')
    ∧ run float_zero BLOCK_SIZE createBiquadFilter configure processBlock
        acquireFilter getGain runEffect e out_channels destination
      = Some (e', destination', before ++ [CallProcessBlock; CallRunEffect; CallFill])
    ∧ before ⊆ [CallCreateBiquadFilter; CallAcquireFilter; CallConfigure]
    ∧ input_buffer e'
      = replicate (Z.to_nat (channels e * BLOCK_SIZE)) float_zero
        ++ drop (Z.to_nat (channels e * BLOCK_SIZE)) processed
    ∧ biquad_filter e' = Some filter'
    ∧ object e' = object2
    ∧ ∀ i : nat, Z.of_nat i < channels e * BLOCK_SIZE →
        input_buffer e' !! i = Some float_zero.
Proof.
  intros [Hlen Hch] Hpos. unfold run.
  set (filter1 := if (is_null (biquad_filter e)
                      || negb (channels e =? last_channels e))
                     && negb (channels e =? 0)
                  then _ else _).
  assert (Hfilter1 : ∃ f log, filter1 = (Some f, log)
            ∧ log ⊆ [CallCreateBiquadFilter]).
  { unfold filter1. destruct (Z.eqb_spec (channels e) 0); [lia |].
    destruct (biquad_filter e) as [f |] eqn:Hf; cbn.
    - destruct (channels e =? last_channels e); cbn; eexists _, _;
        (split; [reflexivity | set_solver]).
    - eexists _, _. split; [reflexivity | set_solver]. }
  destruct Hfilter1 as (f & log1 & -> & Hlog1).
  destruct (acquireFilter (object e)) as [cfg object1] eqn:Hacquire.
  set (configured := match cfg with
                     | Some c => (configure f c, [CallAcquireFilter; CallConfigure])
                     | None => (f, [CallAcquireFilter])
                     end).
  assert (Hconfigured : configured.2 ⊆ [CallAcquireFilter; CallConfigure])
    by (unfold configured; destruct cfg; cbn; intros x; rewrite !elem_of_cons;
        tauto).
  destruct configured as [f' log_cfg]. cbn in Hconfigured.
  destruct (processBlock f' (input_buffer e) false) as [f'' filtered] eqn:Hprocess.
  destruct (runEffect object1 (time_in_blocks e) (channels e) filtered
              out_channels destination (getGain object1))
    as [[object2 processed] destination'] eqn:Hrun.
  assert (Hfiltered : length filtered = length (input_buffer e)).
  { pose proof (processBlock_in_place f' (input_buffer e) false) as H.
    now rewrite Hprocess in H. }
  assert (Hprocessed : length processed = length (input_buffer e)).
  { pose proof (runEffect_in_place object1 (time_in_blocks e) (channels e)
                  filtered out_channels destination (getGain object1)) as H.
    rewrite Hrun in H. cbn in H. congruence. }
  assert (Hlast : uint_wrap (channels e * BLOCK_SIZE) = channels e * BLOCK_SIZE).
  { apply Z.mod_small. nia. }
  rewrite Hlast, std_fill_zeroes by nia. cbn.
  exists f', f'', filtered, object1, object2, processed, destination'.
  exists (log1 ++ log_cfg). eexists.
  split; [assumption |]. split; [assumption |].
  split; [rewrite <- !app_assoc; reflexivity |].
  split.
  { intros x [Hx | Hx]%elem_of_app; [apply Hlog1 in Hx | apply Hconfigured in Hx];
      revert Hx; rewrite !elem_of_cons; tauto. }
  cbn.
  repeat split.
  intros i Hi. rewrite lookup_app_l by (rewrite length_replicate; lia).
  apply lookup_replicate_2. lia.
Qed.

End global_effect_facts.

(** *** The theorem at a concrete effect *)

Import Examples.

Lemma mono_effect_wf : effect_wf 2 2 mono_effect.
Proof. split; cbn; lia. Qed.

(** The one-channel effect of [Examples]: the filter is created, the
    doubled input is mixed into the destination, and the two samples of
    the channel are zeroed. *)
Lemma run_filters_runs_zeroes_witness :
  ∃ e' log,
    mono_run mono_effect 2 [5; 5; 5; 5] = Some (e', [7; 9; 11; 13], log)
    ∧ input_buffer e' = [0; 0; 6; 8]
    ∧ ∀ i : nat, Z.of_nat i < channels mono_effect * 2 →
        input_buffer e' !! i = Some 0.
Proof.
  destruct (run_filters_runs_zeroes 0 2 2 (λ _, ()) (λ f (_ : unit), f)
              doubling_processBlock (λ o, (None, o)) (λ _, 1) adding_runEffect
              ltac:(lia) ltac:(reflexivity)
              ltac:(intros; apply length_fmap) ltac:(reflexivity)
              mono_effect 2 [5; 5; 5; 5] mono_effect_wf ltac:(reflexivity))
    as (filter & filter' & filtered & object1 & object2 & processed
        & destination' & before & e' & _ & _ & Hrun & _ & _ & _ & _ & Hzero).
  assert (Hvalue := Hrun). vm_compute in Hvalue.
  inversion Hvalue; subst; clear Hvalue.
  eexists _, _. split; [exact Hrun |]. split; [reflexivity | exact Hzero].
Defined.

End GlobalEffectProofs.

Module AudioRingUseProofs.
Import SizeT SizeTFacts AudioRing AudioRingProofs AudioRingUse.
Local Open Scope Z_scope.

(** *** More on windows that wrap *)

Section windows.
Context {A : Type}.
Implicit Types d xs : list A.
Local Open Scope nat_scope.

(** Stores into the free part of the array leave the buffered window as
    it is. *)
Lemma wrapped_stores_keep d rp sib xs :
  rp < length d → sib + length xs ≤ length d →
  let wp := if decide (rp + sib < length d) then rp + sib
            else rp + sib - length d in
  let d' := list_inserts 0 (drop (length d - wp) xs)
              (list_inserts wp (take (length d - wp) xs) d) in
  take sib (drop rp (d' ++ d')) = take sib (drop rp (d ++ d)).
Proof.
  intros Hrp Hfit wp d'.
  pose proof (wrapped_append d rp sib xs Hrp Hfit) as Happend.
  cbn zeta in Happend. fold wp in Happend. fold d' in Happend.
  apply (f_equal (take sib)) in Happend.
  rewrite take_take in Happend.
  rewrite Nat.min_l in Happend by lia.
  rewrite take_app_length' in Happend by (rewrite length_wrapped; lia).
  exact Happend.
Qed.

(** What was stored from the write position on is read back from there. *)
Lemma wrapped_stores_read_back d wp xs :
  wp < length d → length xs ≤ length d →
  let d' := list_inserts 0 (drop (length d - wp) xs)
              (list_inserts wp (take (length d - wp) xs) d) in
  take (length xs) (drop wp (d' ++ d')) = xs.
Proof.
  intros Hwp Hfit d'.
  pose proof (wrapped_append d wp 0 xs Hwp ltac:(lia)) as Happend.
  cbn zeta in Happend. rewrite decide_True in Happend by lia.
  rewrite Nat.add_0_r in Happend. exact Happend.
Qed.

(** A shorter window is the start of a longer one. *)
Lemma window_take d p n m :
  n ≤ m → take n (window d p m) = window d p n.
Proof.
  intros Hn. unfold window. rewrite take_take. f_equal. lia.
Qed.

Lemma length_window d p n :
  p < length d → n ≤ length d → length (window d p n) = n.
Proof. apply length_wrapped. Qed.

End windows.

Section ring_use_facts.
Context {ELEM_T : Type}.
Implicit Types r : AudioRingBase ELEM_T.
Implicit Types t : @threads ELEM_T.

(** *** What [beginWrite] and [beginRead] return, in full *)

Lemma beginWrite_cases r requested maxAvailable rg r1 es :
  ring_wf r →
  beginWrite r requested maxAvailable = Returns (rg, r1, es) →
  let a := if maxAvailable then size r - samples_in_buffer r else requested in
  requested ≤ size r - samples_in_buffer r
  ∧ r1 = set_pending_write_size a r
  ∧ es = [AtomicLoad memory_order_relaxed]
  ∧ ∃ p2, rg = (Z.min (size r - write_pointer r) a, Some (write_pointer r),
                a - Z.min (size r - write_pointer r) a, p2)
          ∧ (p2 = Some 0 ∧ size r - write_pointer r < a
             ∨ p2 = None ∧ a ≤ size r - write_pointer r).
Proof.
  intros [] H a. subst a. unfold beginWrite in H.
  destruct maxAvailable; cbn in H; no_wrap; cases_on_tests;
    try discriminate; inversion H; subst; no_wrap.
  all: split; [lia |]. all: split; [reflexivity |]. all: split; [reflexivity |].
  all: eexists; split;
    [ repeat f_equal; lia
    | first [left; split; [reflexivity | lia] | right; split; [reflexivity | lia]] ].
Qed.

Lemma beginRead_cases r requested maxAvailable rg r1 es :
  ring_wf r → 0 ≤ requested →
  beginRead r requested maxAvailable = Returns (rg, r1, es) →
  es = [AtomicLoad memory_order_acquire]
  ∧ ((samples_in_buffer r = 0
      ∨ samples_in_buffer r < requested ∧ maxAvailable = false)
     ∧ rg = (0, None, 0, None) ∧ r1 = r
     ∨ let a := if maxAvailable then samples_in_buffer r else requested in
       0 < a ≤ samples_in_buffer r
       ∧ r1 = set_pending_read_size a r
       ∧ ∃ p2, rg = (Z.min a (size r - read_pointer r), Some (read_pointer r),
                     a - Z.min a (size r - read_pointer r), p2)
               ∧ (p2 = Some 0 ∧ size r - read_pointer r < a
                  ∨ p2 = None ∧ a ≤ size r - read_pointer r)).
Proof.
  intros [] Hreq H. unfold beginRead in H.
  destruct maxAvailable; cbn in H; no_wrap; cases_on_tests;
    try discriminate; inversion H; subst; no_wrap.
  all: split; [reflexivity |].
  all: try (left; split; [lia | split; reflexivity]).
  all: right; cbn; split; [lia |]; split; [reflexivity |].
  all: eexists; split;
    [ repeat f_equal; lia
    | first [left; split; [reflexivity | lia] | right; split; [reflexivity | lia]] ].
Qed.

(** *** Construction *)


(** *** The invariant *)

(** X2.  Every member function that returns keeps the representation
    invariant of the ring, whatever it is asked for. *)
Theorem member_functions_keep_wf r :
  ring_wf r →
  (∀ requested maxAvailable rg r' es, 0 ≤ requested →
     beginWrite r requested maxAvailable = Returns (rg, r', es) → ring_wf r')
  ∧ (∀ amount r' es, 0 ≤ amount →
       endWrite r amount = Returns (r', es) → ring_wf r')
  ∧ (∀ requested maxAvailable rg r' es, 0 ≤ requested →
       beginRead r requested maxAvailable = Returns (rg, r', es) → ring_wf r')
  ∧ (∀ amount r' es, 0 ≤ amount →
       endRead r amount = Returns (r', es) → ring_wf r').
Proof.
  intros Hwf. split; [| split; [| split]]; intros.
  - eapply beginWrite_wf; eassumption.
  - eapply endWrite_wf; eassumption.
  - eapply beginRead_wf; eassumption.
  - eapply endRead_wf; eassumption.
Qed.

(** *** [endWrite] *)

(** X3.  With [amount <= pending_write_size], [endWrite(amount)] moves the
    write pointer forward by [amount] modulo [size()], adds exactly
    [amount] to the counter by a [fetch_add] with release ordering and
    takes [amount] off the pending write size; it does not signal the
    event and touches nothing of the read side.  What it adds to the
    buffered samples, after the ones already there, are the [amount]
    elements of the array from the old write pointer on. *)
Theorem endWrite_commits r amount :
  ring_wf r →
  0 ≤ amount ≤ pending_write_size r →
  ∃ r',
    endWrite r amount = Returns (r', [AtomicFetchAdd amount memory_order_release])
    ∧ write_pointer r' = (write_pointer r + amount) `mod` size r
    ∧ samples_in_buffer r' = samples_in_buffer r + amount
    ∧ pending_write_size r' = pending_write_size r - amount
    ∧ read_pointer r' = read_pointer r
    ∧ pending_read_size r' = pending_read_size r
    ∧ read_end_event r' = read_end_event r
    ∧ data_provider r' = data_provider r
    ∧ contents r'
      = contents r
        ++ window (data_provider r) (Z.to_nat (write_pointer r)) (Z.to_nat amount).
Proof.
  intros Hwf Hamount. pose proof Hwf as []. unfold endWrite.
  destruct (Z.leb_spec amount (pending_write_size r)); [| lia]. cbn.
  eexists. split; [reflexivity |]. cbn. no_wrap. repeat split.
  unfold contents, window, size in *. cbn.
  rewrite (wrapped_advance (data_provider r) (Z.to_nat (read_pointer r))
             (Z.to_nat (samples_in_buffer r))
             (Z.to_nat (samples_in_buffer r + amount))) by lia.
  f_equal. f_equal; [lia |]. f_equal.
  rewrite wf_pointers0, mod_once by lia. case_decide; cases_on_tests; lia.
Qed.

(** *** [beginWrite]: waiting *)

(** X4.  A [beginWrite] whose assertions hold waits exactly when the free
    space, [size()] less the counter, is smaller than the request;
    otherwise it returns.  With [maxAvailable] and a request of 0 it
    never waits, even on a full ring. *)
Theorem beginWrite_waits_iff r requested maxAvailable :
  ring_wf r →
  0 ≤ requested ≤ size r →
  maxAvailable = true ∨ requested ≠ 0 →
  (beginWrite r requested maxAvailable = Blocks
   ↔ size r - samples_in_buffer r < requested)
  ∧ (requested ≤ size r - samples_in_buffer r
     ↔ ∃ rg r' es, beginWrite r requested maxAvailable = Returns (rg, r', es)).
Proof.
  intros [] Hreq Hnonzero. unfold beginWrite.
  destruct (Z.eqb_spec requested 0) as [Hzero | Hzero];
    [destruct Hnonzero as [-> | ?]; [| congruence] | rewrite orb_true_r]; cbn;
    (destruct (Z.leb_spec requested (size r)); [| lia]); cbn; no_wrap;
    (destruct (Z.ltb_spec (size r - samples_in_buffer r) requested);
     [ split; [split; [lia | reflexivity] |];
       split; [lia | intros (? & ? & ? & H'); discriminate H']
     | split; [split; [| lia] |] ]).
  all: try (destruct (_ =? _); intros H'; discriminate H').
  all: split; [intros _ | lia].
  all: destruct (_ =? _); eexists _, _, _; reflexivity.
Qed.

(** *** The writer's regions and the buffered samples *)

(** The copy into the regions of [beginWrite], as stores from the write
    pointer on. *)
Lemma store_regions_wrapped r requested maxAvailable rg r1 es xs :
  ring_wf r →
  beginWrite r requested maxAvailable = Returns (rg, r1, es) →
  Z.of_nat (length xs) ≤ regions_length rg →
  store_regions (data_provider r) rg xs
  = list_inserts 0
      (drop (length (data_provider r) - Z.to_nat (write_pointer r)) xs)
      (list_inserts (Z.to_nat (write_pointer r))
         (take (length (data_provider r) - Z.to_nat (write_pointer r)) xs)
         (data_provider r))
  ∧ regions_length rg ≤ size r - samples_in_buffer r
  ∧ r1 = set_pending_write_size (regions_length rg) r.
Proof.
  intros Hwf Hbegin Hxs. pose proof Hwf as [].
  apply beginWrite_cases in Hbegin as (Hroom & -> & _ & p2 & -> & Hp2);
    [| assumption].
  cbn in Hxs |- *. unfold size in *.
  set (a := if maxAvailable then _ else _) in *.
  assert (Ha : a ≤ Z.of_nat (length (data_provider r)) - samples_in_buffer r)
    by (subst a; destruct maxAvailable; lia).
  split; [| split; [lia | f_equal; lia]].
  apply (stores_wrapped _ _ a); try lia. destruct Hp2 as [[-> _] | [-> ?]];
    [left; reflexivity | right; split; [reflexivity | lia]].
Qed.

(** X5.  Whatever the writer copies into the regions [beginWrite] gave it,
    the samples the ring buffers stay as they were; the array keeps its
    length and the copy is found again from the write pointer on, where
    [endWrite] will commit it. *)
Theorem stores_leave_contents r requested maxAvailable rg r1 es xs :
  ring_wf r →
  beginWrite r requested maxAvailable = Returns (rg, r1, es) →
  Z.of_nat (length xs) ≤ regions_length rg →
  let d' := store_regions (data_provider r1) rg xs in
  length d' = length (data_provider r)
  ∧ contents (set_data_provider d' r1) = contents r
  ∧ window d' (Z.to_nat (write_pointer r)) (length xs) = xs.
Proof.
  intros Hwf Hbegin Hxs d'. subst d'.
  destruct (store_regions_wrapped r requested maxAvailable rg r1 es xs)
    as (Hstores & Hspace & ->); [assumption ..|].
  cbn [data_provider set_pending_write_size]. rewrite Hstores.
  destruct Hwf. unfold size in *.
  split; [now rewrite !length_inserts |]. split.
  - unfold contents. cbn.
    pose proof (wrapped_stores_keep (data_provider r)
                  (Z.to_nat (read_pointer r)) (Z.to_nat (samples_in_buffer r)) xs
                  ltac:(lia) ltac:(lia)) as Hkeep.
    cbn zeta in Hkeep. rewrite <- Hkeep. repeat f_equal.
    all: rewrite wf_pointers0, mod_once by lia; case_decide; cases_on_tests; lia.
  - apply wrapped_stores_read_back; lia.
Qed.

(** *** The reader's regions *)

Lemma load_regions_oldest r requested maxAvailable rg r1 es :
  ring_wf r →
  0 ≤ requested →
  beginRead r requested maxAvailable = Returns (rg, r1, es) →
  0 ≤ regions_length rg ≤ samples_in_buffer r
  ∧ data_provider r1 = data_provider r
  ∧ load_regions (data_provider r1) rg
    = take (Z.to_nat (regions_length rg)) (contents r).
Proof.
  intros Hwf Hreq Hbegin. pose proof Hwf as [].
  apply beginRead_cases in Hbegin
    as (_ & [(_ & -> & ->) | (Ha & -> & p2 & -> & Hp2)]); [| | assumption ..].
  - cbn. repeat split; lia.
  - set (a := if maxAvailable then _ else _) in *. cbn. unfold size in *.
    split; [lia |]. split; [reflexivity |].
    pose proof (loads_wrapped (data_provider r) (read_pointer r) a
                  (Z.min a (Z.of_nat (length (data_provider r)) - read_pointer r))
                  (a - Z.min a (Z.of_nat (length (data_provider r)) - read_pointer r))
                  p2) as Hloads.
    cbn [load_region] in Hloads |- *. rewrite Hloads; try lia.
    + unfold contents. rewrite take_take. f_equal. lia.
    + destruct Hp2 as [[-> _] | [-> ?]];
        [left; reflexivity | right; split; [reflexivity | lia]].
Qed.

(** X6.  The regions of a [beginRead] hold the oldest buffered samples in
    order: copied out, first region then second, they are the first
    [len1 + len2] of the samples the ring buffers, and there are no more
    of them than the counter says.  The call changes no element of the
    array. *)
Theorem beginRead_hands_out_oldest r requested maxAvailable rg r1 es :
  ring_wf r →
  0 ≤ requested →
  beginRead r requested maxAvailable = Returns (rg, r1, es) →
  0 ≤ regions_length rg ≤ samples_in_buffer r
  ∧ data_provider r1 = data_provider r
  ∧ load_regions (data_provider r1) rg
    = take (Z.to_nat (regions_length rg)) (contents r).
Proof.
  intros Hwf Hreq Hbegin.
  destruct (load_regions_oldest r requested maxAvailable rg r1 es)
    as (Hlen & Hdata & Hloads); auto.
Qed.

(** *** The commits of everything pending *)

(** X7.  [endWrite()] and [endRead()] never fail their assertion.  The
    first adds all of the pending write to the counter, the second takes
    all of the pending read off it and signals the event; either leaves
    nothing pending on its side, and what [endRead()] removes are the
    oldest buffered samples. *)
Theorem commit_everything r :
  ring_wf r →
  (∃ r', endWrite_all r
         = Returns (r', [AtomicFetchAdd (pending_write_size r) memory_order_release])
         ∧ pending_write_size r' = 0
         ∧ samples_in_buffer r' = samples_in_buffer r + pending_write_size r
         ∧ ring_wf r')
  ∧ (∃ r', endRead_all r
           = Returns (r', [AtomicFetchSub (pending_read_size r) memory_order_release;
                           EventSignal])
           ∧ pending_read_size r' = 0
           ∧ samples_in_buffer r' = samples_in_buffer r - pending_read_size r
           ∧ contents r
             = take (Z.to_nat (pending_read_size r)) (contents r) ++ contents r'
           ∧ ring_wf r').
Proof.
  intros Hwf. pose proof Hwf as []. split.
  - destruct (endWrite_all r) as [[r' es] | |] eqn:Hend;
      unfold endWrite_all, endWrite in Hend; rewrite Z.leb_refl in Hend;
      cbn in Hend; [| discriminate ..].
    exists r'. split; [inversion Hend; reflexivity |].
    assert (ring_wf r') by (eapply (endWrite_wf r (pending_write_size r));
      [assumption | lia | unfold endWrite; rewrite Z.leb_refl; exact Hend]).
    inversion Hend; subst; cbn. no_wrap.
    split; [lia | split; [lia | assumption]].
  - destruct (endRead_all r) as [[r' es] | |] eqn:Hend;
      unfold endRead_all, endRead in Hend; rewrite Z.leb_refl in Hend;
      cbn in Hend; [| discriminate ..].
    exists r'. split; [inversion Hend; reflexivity |].
    assert (ring_wf r') by (eapply (endRead_wf r (pending_read_size r));
      [assumption | lia | unfold endRead; rewrite Z.leb_refl; exact Hend]).
    inversion Hend; subst; cbn. no_wrap.
    split; [lia |]. split; [reflexivity |]. split; [| assumption].
    unfold contents, size in *. cbn.
    rewrite take_take.
    rewrite (wrapped_advance (data_provider r) (Z.to_nat (read_pointer r))
               (Z.to_nat (pending_read_size r))
               (Z.to_nat (samples_in_buffer r))) at 1 by lia.
    f_equal; [f_equal; lia |]. f_equal; [lia |]. f_equal.
    rewrite mod_once by lia. case_decide; cases_on_tests; lia.
Qed.

(** *** Where a transaction leaves the ring *)

Lemma length_contents r :
  ring_wf r → length (contents r) = Z.to_nat (samples_in_buffer r).
Proof.
  intros []. unfold contents, size in *. apply length_wrapped; lia.
Qed.

Lemma length_store_region (d : list ELEM_T) p xs :
  length (store_region d p xs) = length d.
Proof. destruct p; cbn; [apply length_inserts | reflexivity]. Qed.

Lemma write_transaction_moves r requested maxAvailable xs r1 :
  ring_wf r →
  write_transaction r requested maxAvailable xs = Returns r1 →
  size r1 = size r
  ∧ read_pointer r1 = read_pointer r
  ∧ write_pointer r1 = (write_pointer r + Z.of_nat (length xs)) `mod` size r
  ∧ samples_in_buffer r1 = samples_in_buffer r + Z.of_nat (length xs).
Proof.
  intros Hwf H. pose proof Hwf as []. unfold write_transaction in H.
  destruct (beginWrite r requested maxAvailable)
    as [[[[[[len1 p1] len2] p2] r0] es] | |] eqn:Hbegin; try discriminate.
  apply beginWrite_cases in Hbegin as (Hroom & -> & _ & q & Hrg & _);
    [| assumption].
  cbn in H. unfold endWrite in H. cbn in H.
  destruct (_ <=? _) eqn:Hle in H; [| discriminate].
  apply Z.leb_le in Hle. cbn in H. inversion H; subst r1; clear H.
  unfold size in *. cbn. rewrite !length_store_region.
  assert (Z.of_nat (length xs) ≤ size r - samples_in_buffer r)
    by (unfold size; destruct maxAvailable; lia).
  unfold size in *. no_wrap. repeat split.
Qed.

Lemma read_transaction_moves r requested maxAvailable ys r1 :
  ring_wf r → 0 ≤ requested →
  pending_read_size r = 0 →
  read_transaction r requested maxAvailable = Returns (ys, r1) →
  size r1 = size r
  ∧ write_pointer r1 = write_pointer r
  ∧ read_pointer r1 = (read_pointer r + Z.of_nat (length ys)) `mod` size r
  ∧ samples_in_buffer r1 = samples_in_buffer r - Z.of_nat (length ys)
  ∧ ys = take (length ys) (contents r)
  ∧ ((samples_in_buffer r = 0
      ∨ samples_in_buffer r < requested ∧ maxAvailable = false)
     ∧ ys = []
     ∨ Z.of_nat (length ys)
       = if maxAvailable then samples_in_buffer r else requested).
Proof.
  intros Hwf Hreq Hpending H. pose proof Hwf as []. unfold read_transaction in H.
  destruct (beginRead r requested maxAvailable)
    as [[[[[[len1 p1] len2] p2] r0] es] | |] eqn:Hbegin; try discriminate.
  destruct (load_regions_oldest _ _ _ _ _ _ Hwf Hreq Hbegin)
    as (Hlen & Hdata & Hloads).
  apply beginRead_cases in Hbegin as (_ & Hcases); [| assumption ..].
  cbn in H. unfold endRead_all, endRead in H. rewrite Z.leb_refl in H.
  cbn in H. inversion H; subst ys r1; clear H.
  cbn [load_regions regions_length] in Hloads, Hlen.
  rewrite Hloads. rewrite length_take, length_contents by assumption.
  replace (Z.of_nat (Z.to_nat (len1 + len2) `min` Z.to_nat (samples_in_buffer r)))
    with (len1 + len2) by lia.
  replace (Z.to_nat (len1 + len2) `min` Z.to_nat (samples_in_buffer r))%nat
    with (Z.to_nat (len1 + len2)) by lia.
  unfold size in *.
  destruct Hcases as [(Hunder & Hrg & ->) | (Ha & -> & q & Hrg & _)];
    inversion Hrg; subst; cbn; unfold size; cbn.
  - rewrite Hpending. no_wrap.
    split; [reflexivity |]. split; [reflexivity |].
    split; [f_equal; lia |]. split; [lia |]. split; [reflexivity |].
    left. split; [assumption | reflexivity].
  - no_wrap.
    split; [reflexivity |]. split; [reflexivity |].
    split; [f_equal; lia |]. split; [lia |]. split; [reflexivity |].
    right. destruct maxAvailable; lia.
Qed.

(** *** Round trip *)

(** X8.  Samples written into a ring and then read with [maxAvailable]
    come back unchanged and in order, after the samples that were
    buffered before them, and the read leaves the ring empty. *)
Theorem write_then_read_all r xs requested :
  ring_wf r →
  pending_read_size r = 0 →
  0 < Z.of_nat (length xs) ≤ size r - samples_in_buffer r →
  0 ≤ requested ≤ size r →
  ∃ r1 r2,
    write_transaction r (Z.of_nat (length xs)) false xs = Returns r1
    ∧ read_transaction r1 requested true = Returns (contents r ++ xs, r2)
    ∧ samples_in_buffer r2 = 0
    ∧ contents r2 = [].
Proof.
  intros Hwf Hpending Hxs Hreq. pose proof Hwf as [].
  destruct (write_transaction_returns r (Z.of_nat (length xs)) false xs)
    as (r1 & Hwrite); [assumption | lia | right; lia | lia |].
  destruct (write_transaction_step _ _ _ _ _ Hwf Hwrite)
    as (Hwf1 & Hcontents & Hpending1).
  destruct (write_transaction_moves _ _ _ _ _ Hwf Hwrite)
    as (Hsize & _ & _ & Hsib).
  destruct (read_transaction_returns r1 requested true)
    as (ys & r2 & Hread); [lia | left; reflexivity |].
  destruct (read_transaction_moves r1 requested true ys r2 Hwf1
              ltac:(lia) ltac:(lia) Hread)
    as (_ & _ & _ & Hsib2 & Hys & Hcount).
  destruct (read_transaction_step r1 requested true ys r2 Hwf1
              ltac:(lia) ltac:(lia) Hread)
    as (Hwf2 & Hsplit & _).
  assert (Hall : Z.of_nat (length ys) = samples_in_buffer r1).
  { destruct Hcount as [([? | [? ?]] & _) | ?]; [lia | discriminate | assumption]. }
  assert (ys = contents r ++ xs) as ->.
  { rewrite Hys, <- Hcontents. apply take_ge.
    rewrite length_contents by assumption. lia. }
  exists r1, r2. split; [assumption |]. split; [assumption |].
  split; [lia |].
  apply length_zero_iff_nil. rewrite length_contents by assumption. lia.
Qed.

(** *** Use in whole blocks *)

Lemma aligned_room k size ptr :
  0 < k → (k | size) → (k | ptr) → 0 ≤ ptr < size → k ≤ size - ptr.
Proof.
  intros Hk Hsize Hptr Hrange.
  apply Z.divide_pos_le; [lia |]. now apply Z.divide_sub_r.
Qed.

Lemma aligned_advance k size ptr :
  0 < k → (k | size) → (k | ptr) → 0 ≤ ptr < size →
  (k | (ptr + k) `mod` size).
Proof.
  intros Hk Hsize Hptr Hrange.
  pose proof (aligned_room k size ptr Hk Hsize Hptr Hrange).
  rewrite mod_once by lia. destruct (_ <? _).
  - apply Z.divide_add_r; [assumption | apply Z.divide_refl].
  - apply Z.divide_sub_r; [| assumption].
    apply Z.divide_add_r; [assumption | apply Z.divide_refl].
Qed.

Lemma whole_block_keeps_aligned k r tx h r' :
  ring_wf r → pending_read_size r = 0 → 0 < k →
  aligned k r → whole_block k tx →
  run [tx] r = Returns (h, r') →
  ring_wf r' ∧ pending_read_size r' = 0 ∧ aligned k r'.
Proof.
  intros Hwf Hpending Hk (Hsize & Hwp & Hrp) Htx Hrun. pose proof Hwf as [].
  destruct tx as [requested maxAvailable xs | requested maxAvailable]; cbn in Hrun.
  - destruct Htx as (-> & -> & Hlen).
    destruct (write_transaction r k false xs) as [r1 | |] eqn:Hwrite;
      try discriminate.
    cbn in Hrun. injection Hrun as <- <-.
    destruct (write_transaction_step _ _ _ _ _ Hwf Hwrite) as (Hwf1 & _ & Hp).
    destruct (write_transaction_moves _ _ _ _ _ Hwf Hwrite)
      as (Hsize1 & Hrp1 & Hwp1 & _).
    split; [assumption |]. split; [congruence |].
    unfold aligned. rewrite Hsize1, Hrp1, Hwp1, Hlen.
    split; [assumption |]. split; [| assumption].
    now apply aligned_advance.
  - destruct Htx as (-> & ->).
    destruct (read_transaction r k false) as [[ys r1] | |] eqn:Hread;
      try discriminate.
    cbn in Hrun. injection Hrun as <- <-.
    destruct (read_transaction_step r k false ys r1 Hwf ltac:(lia) Hpending Hread)
      as (Hwf1 & _ & Hp).
    destruct (read_transaction_moves r k false ys r1 Hwf ltac:(lia) Hpending Hread)
      as (Hsize1 & Hwp1 & Hrp1 & _ & _ & Hcount).
    split; [assumption |]. split; [assumption |].
    unfold aligned. rewrite Hsize1, Hwp1, Hrp1.
    split; [assumption |]. split; [assumption |].
    destruct Hcount as [(_ & ->) | ->].
    + cbn. rewrite Z.add_0_r, Z.mod_small by lia. assumption.
    + now apply aligned_advance.
Qed.

Lemma run_cons tx txs r h r' :
  run (tx :: txs) r = Returns (h, r') →
  ∃ h1 r1 h2, run [tx] r = Returns (h1, r1) ∧ run txs r1 = Returns (h2, r').
Proof.
  intros H. destruct tx as [requested maxAvailable xs | requested maxAvailable];
    cbn in H |- *.
  - destruct (write_transaction r requested maxAvailable xs) as [r1 | |];
      try discriminate. cbn in H |- *.
    destruct (run txs r1) as [[h2 r2] | |] eqn:Hrest; try discriminate.
    cbn in H. injection H as <- <-.
    eexists _, _, _. split; [reflexivity | exact Hrest].
  - destruct (read_transaction r requested maxAvailable) as [[ys r1] | |];
      try discriminate. cbn in H |- *.
    destruct (run txs r1) as [[h2 r2] | |] eqn:Hrest; try discriminate.
    cbn in H. injection H as <- <-.
    eexists _, _, _. split; [reflexivity | exact Hrest].
Qed.

Lemma whole_blocks_keep_aligned k txs : ∀ r h r',
  ring_wf r → pending_read_size r = 0 → 0 < k →
  aligned k r → Forall (whole_block k) txs →
  run txs r = Returns (h, r') →
  ring_wf r' ∧ pending_read_size r' = 0 ∧ aligned k r'.
Proof.
  induction txs as [| tx txs IH]; intros r h r' Hwf Hpending Hk Ha Htxs Hrun.
  - cbn in Hrun. inversion Hrun; subst. auto.
  - apply Forall_cons in Htxs as [Htx Htxs].
    apply run_cons in Hrun as (h1 & r1 & h2 & Hfirst & Hrest).
    destruct (whole_block_keeps_aligned k r tx h1 r1) as (? & ? & ?);
      [assumption ..|].
    eapply IH; eassumption.
Qed.

(** X9.  The note above [beginWrite]: when the ring size is a multiple of
    the block size [k] and every transaction asks for [k] samples and
    commits them all, then after any number of such transactions the
    calls [beginWrite(k)] and [beginRead(k)] hand out the whole block as
    the first region, at a pointer that is a multiple of [k], and a null
    second pointer (or, for [beginRead], report underflow). *)
Theorem whole_blocks_single_region k txs r h r' :
  ring_wf r →
  samples_in_buffer r = 0 →
  0 < k →
  aligned k r →
  Forall (whole_block k) txs →
  run txs r = Returns (h, r') →
  (∀ rg r1 es, beginWrite r' k false = Returns (rg, r1, es) →
     rg = (k, Some (write_pointer r'), 0, None) ∧ (k | write_pointer r'))
  ∧ (∀ rg r1 es, beginRead r' k false = Returns (rg, r1, es) →
       rg = (0, None, 0, None)
       ∨ rg = (k, Some (read_pointer r'), 0, None) ∧ (k | read_pointer r')).
Proof.
  intros Hwf Hempty Hk Haligned Htxs Hrun.
  assert (Hpending : pending_read_size r = 0) by (destruct Hwf; lia).
  destruct (whole_blocks_keep_aligned k txs r h r')
    as (Hwf' & _ & Hsize & Hwp & Hrp); [assumption ..|].
  pose proof Hwf' as []. split.
  - intros rg r1 es Hbegin.
    apply beginWrite_cases in Hbegin as (_ & _ & _ & p2 & -> & Hp2);
      [| assumption].
    pose proof (aligned_room k (size r') (write_pointer r') Hk Hsize Hwp
                  wf_write_pointer0).
    split; [| assumption].
    destruct Hp2 as [[_ ?] | [-> _]]; [lia |].
    rewrite Z.min_r by lia. repeat f_equal. lia.
  - intros rg r1 es Hbegin.
    apply beginRead_cases in Hbegin as (_ & [(_ & -> & _) | (_ & _ & p2 & -> & Hp2)]);
      [left; reflexivity | | assumption | lia].
    right.
    pose proof (aligned_room k (size r') (read_pointer r') Hk Hsize Hrp
                  wf_read_pointer0).
    split; [| assumption].
    destruct Hp2 as [[_ ?] | [-> _]]; [lia |].
    rewrite Z.min_l by lia. repeat f_equal. lia.
Qed.

(** *** Two threads *)

(** A window of [s] elements is its first [n] and then the window that
    starts [n] further on, modulo the length of the array. *)
Lemma window_advance (d : list ELEM_T) (p n s : Z) :
  0 ≤ p < Z.of_nat (length d) → 0 ≤ n ≤ s → s ≤ Z.of_nat (length d) →
  window d (Z.to_nat p) (Z.to_nat s)
  = window d (Z.to_nat p) (Z.to_nat n)
    ++ window d (Z.to_nat ((p + n) `mod` Z.of_nat (length d))) (Z.to_nat (s - n)).
Proof.
  intros Hp Hn Hs. unfold window.
  rewrite (wrapped_advance d (Z.to_nat p) (Z.to_nat n) (Z.to_nat s)) by lia.
  f_equal. f_equal; [lia |]. f_equal.
  rewrite mod_once by lia. case_decide; cases_on_tests; lia.
Qed.

(** What is left of a window once its first [n] elements are taken. *)
Lemma window_rest (d : list ELEM_T) (p n : Z) (xs : list ELEM_T) :
  0 ≤ p < Z.of_nat (length d) → 0 ≤ n ≤ Z.of_nat (length xs) →
  (length xs ≤ length d)%nat →
  window d (Z.to_nat p) (length xs) = xs →
  window d (Z.to_nat p) (Z.to_nat n) = take (Z.to_nat n) xs
  ∧ window d (Z.to_nat ((p + n) `mod` Z.of_nat (length d)))
      (length (drop (Z.to_nat n) xs))
    = drop (Z.to_nat n) xs.
Proof.
  intros Hp Hn Hlen Hxs. split.
  - rewrite <- Hxs at 1. now rewrite window_take by lia.
  - pose proof (window_advance d p n (Z.of_nat (length xs))
                  Hp ltac:(lia) ltac:(lia)) as Hsplit.
    rewrite Nat2Z.id, Hxs in Hsplit.
    apply (f_equal (drop (Z.to_nat n))) in Hsplit.
    rewrite drop_app_length' in Hsplit by (rewrite length_window; lia).
    rewrite length_drop.
    replace (length xs - Z.to_nat n)%nat
      with (Z.to_nat (Z.of_nat (length xs) - n)) by lia.
    now symmetry.
Qed.

Lemma set_data_provider_wf r (d' : list ELEM_T) :
  length d' = length (data_provider r) →
  ring_wf r → ring_wf (set_data_provider d' r).
Proof.
  intros Hlen []. constructor; unfold size in *; cbn; rewrite ?Hlen; assumption.
Qed.

Lemma idle_ok r :
  ring_wf r → samples_in_buffer r = 0 → threads_ok (idle r).
Proof.
  intros Hwf Hempty. pose proof Hwf as [].
  constructor; cbn; try assumption; try discriminate.
  - split; [lia | reflexivity].
  - split; [lia | reflexivity].
  - unfold contents. now rewrite Hempty.
Qed.

Lemma writer_begin_ok t requested maxAvailable t' :
  threads_ok t → 0 ≤ requested →
  step t (WriterBegin requested maxAvailable) = Some t' → threads_ok t'.
Proof.
  intros [Hwf Hwr Hws Hrr Hrl Hfifo] Hreq Hstep. cbn in Hstep.
  destruct (beginWrite (shared t) requested maxAvailable)
    as [[[rg r1] es] | |] eqn:Hbegin; try discriminate.
  cbn in Hstep. injection Hstep as <-.
  pose proof (beginWrite_wf _ _ _ _ _ _ Hwf Hreq Hbegin) as Hwf1.
  apply beginWrite_cases in Hbegin as (_ & -> & _ & p2 & -> & Hp2);
    [| assumption].
  pose proof Hwf1 as [].
  constructor; cbn in *; try assumption.
  - intros rg [= <-]. split; [reflexivity |]. split; [lia |].
    cbn. unfold size in *. cbn.
    split; [reflexivity |]. split; [apply Z.min_comm |]. split; [lia |].
    destruct Hp2 as [[-> _] | [-> ?]];
      [left; reflexivity | right; split; [reflexivity | lia]].
  - split; [lia | reflexivity].
Qed.

Lemma writer_store_ok t xs t' :
  threads_ok t →
  step t (WriterStore xs) = Some t' → threads_ok t'.
Proof.
  intros [Hwf Hwr Hws Hrr Hrl Hfifo] Hstep. cbn -[store_regions] in Hstep.
  destruct (writer_regions t) as [[[[len1 p1] len2] p2] |] eqn:Hregions;
    try discriminate.
  cbn -[store_regions] in Hstep.
  destruct (Z.leb_spec (Z.of_nat (length xs)) (len1 + len2)) as [Hxs |];
    try discriminate.
  apply (inj Some) in Hstep. subst t'.
  destruct (Hwr _ eq_refl) as (_ & _ & -> & Hlen1 & Hsum & Hp2).
  pose proof Hwf as []. unfold size in *.
  set (r := shared t) in *. set (d := data_provider r) in *.
  assert (Hstores :
    store_regions d (len1, Some (write_pointer r), len2, p2) xs
    = list_inserts 0 (drop (length d - Z.to_nat (write_pointer r)) xs)
        (list_inserts (Z.to_nat (write_pointer r))
           (take (length d - Z.to_nat (write_pointer r)) xs) d)).
  { apply (stores_wrapped d (write_pointer r) (pending_write_size r));
      lia || assumption. }
  assert (Hwp : Z.to_nat (write_pointer r)
                = if decide (Z.to_nat (read_pointer r)
                             + Z.to_nat (samples_in_buffer r) < length d)%nat
                  then (Z.to_nat (read_pointer r) + Z.to_nat (samples_in_buffer r))%nat
                  else (Z.to_nat (read_pointer r) + Z.to_nat (samples_in_buffer r)
                        - length d)%nat).
  { rewrite wf_pointers0, mod_once by lia. case_decide; cases_on_tests; lia. }
  assert (Hkeep :
    window (store_regions d (len1, Some (write_pointer r), len2, p2) xs)
      (Z.to_nat (read_pointer r)) (Z.to_nat (samples_in_buffer r))
    = window d (Z.to_nat (read_pointer r)) (Z.to_nat (samples_in_buffer r))).
  { rewrite Hstores, Hwp. unfold window. apply wrapped_stores_keep; lia. }
  assert (Hlength :
    length (store_regions d (len1, Some (write_pointer r), len2, p2) xs)
    = length d) by (rewrite Hstores; now rewrite !length_inserts).
  set (d' := store_regions d _ xs) in *. clearbody d'.
  constructor; cbn -[window].
  - now apply set_data_provider_wf.
  - discriminate.
  - split; [lia |]. rewrite Hstores. apply wrapped_stores_read_back; lia.
  - intros rg Hrg. destruct (Hrr rg Hrg) as (Hloaded & Hfrom).
    split; [assumption |]. destruct rg as [[[? ?] ?] ?].
    unfold regions_from, size in *. cbn. now rewrite Hlength.
  - destruct Hrl as (Hcount & Hwindow). split; [assumption |].
    rewrite <- (window_take _ _ _ (Z.to_nat (samples_in_buffer r))) by lia.
    rewrite Hkeep. rewrite window_take by lia. assumption.
  - rewrite Hfifo. f_equal. unfold contents. cbn. symmetry. exact Hkeep.
Qed.

Lemma writer_end_ok t amount t' :
  threads_ok t → 0 ≤ amount →
  step t (WriterEnd amount) = Some t' → threads_ok t'.
Proof.
  intros [Hwf Hwr Hws Hrr Hrl Hfifo] Hamount Hstep. cbn in Hstep.
  destruct (Z.leb_spec amount (Z.of_nat (length (writer_stored t))))
    as [Hstored |]; try discriminate.
  destruct (endWrite (shared t) amount) as [[r1 es] | |] eqn:Hend;
    try discriminate.
  cbn in Hstep. injection Hstep as <-.
  pose proof (endWrite_wf _ _ _ _ Hwf Hamount Hend) as Hwf1.
  unfold endWrite in Hend.
  destruct (Z.leb_spec amount (pending_write_size (shared t))); [| discriminate].
  cbn in Hend. injection Hend as <- _.
  pose proof Hwf as []. unfold size in *.
  set (r := shared t) in *. set (d := data_provider r) in *.
  destruct Hws as (Hcount & Hwindow).
  destruct (window_rest d (write_pointer r) amount (writer_stored t))
    as (Hfirst & Hrest); [lia | lia | lia | assumption |].
  no_wrap. constructor; cbn -[window].
  - exact Hwf1.
  - intros rg Hrg. destruct (Hwr rg Hrg) as (Hnil & Hpos & Hfrom).
    rewrite Hnil in *. cbn in Hstored.
    assert (amount = 0) as -> by lia.
    rewrite drop_nil, !Z.add_0_r, !Z.sub_0_r.
    rewrite (Z.mod_small (write_pointer r)) by lia.
    split; [reflexivity |]. split; [assumption |].
    destruct rg as [[[? ?] ?] ?]. exact Hfrom.
  - split; [rewrite length_drop; lia | exact Hrest].
  - intros rg Hrg. destruct (Hrr rg Hrg) as (Hloaded & Hfrom).
    split; [assumption |]. destruct rg as [[[? ?] ?] ?]. exact Hfrom.
  - assumption.
  - rewrite Hfifo, <- app_assoc. f_equal. unfold contents. cbn. fold d.
    change (take ?n (drop ?p (d ++ d))) with (window d p n).
    rewrite (window_advance d (read_pointer r) (samples_in_buffer r)
               (samples_in_buffer r + amount)) by lia.
    rewrite <- wf_pointers0. f_equal.
    replace (samples_in_buffer r + amount - samples_in_buffer r) with amount by lia.
    symmetry. exact Hfirst.
Qed.

Lemma reader_begin_ok t requested maxAvailable t' :
  threads_ok t → 0 ≤ requested →
  step t (ReaderBegin requested maxAvailable) = Some t' → threads_ok t'.
Proof.
  intros Hok Hreq Hstep. pose proof Hok as [Hwf Hwr Hws Hrr Hrl Hfifo].
  cbn in Hstep.
  destruct (beginRead (shared t) requested maxAvailable)
    as [[[rg r1] es] | |] eqn:Hbegin; try discriminate.
  cbn in Hstep.
  pose proof (beginRead_wf _ _ _ _ _ _ Hwf Hreq Hbegin) as Hwf1.
  apply beginRead_cases in Hbegin
    as (_ & [(_ & -> & ->) | (Ha & -> & p2 & -> & Hp2)]); [| | assumption ..].
  - injection Hstep as <-. assumption.
  - injection Hstep as <-. pose proof Hwf1 as [].
    constructor; cbn in *; try assumption.
    + intros rg [= <-]. split; [reflexivity |].
      cbn. unfold size in *. cbn.
      split; [reflexivity |]. split; [reflexivity |]. split; [lia |].
      destruct Hp2 as [[-> _] | [-> ?]];
        [left; reflexivity | right; split; [reflexivity | lia]].
    + split; [lia | reflexivity].
Qed.

Lemma reader_load_ok t t' :
  threads_ok t →
  step t ReaderLoad = Some t' → threads_ok t'.
Proof.
  intros [Hwf Hwr Hws Hrr Hrl Hfifo] Hstep. cbn -[load_regions] in Hstep.
  destruct (reader_regions t) as [[[[len1 p1] len2] p2] |] eqn:Hregions;
    try discriminate.
  cbn -[load_regions] in Hstep. apply (inj Some) in Hstep. subst t'.
  destruct (Hrr _ eq_refl) as (_ & -> & Hlen1 & Hsum & Hp2).
  pose proof Hwf as []. unfold size in *.
  pose proof (loads_wrapped (data_provider (shared t)) (read_pointer (shared t))
                (pending_read_size (shared t)) len1 len2 p2
                ltac:(lia) ltac:(lia) ltac:(lia) ltac:(lia) Hp2) as Hloads.
  constructor; cbn -[load_regions window]; try assumption.
  - discriminate.
  - unfold load_regions, window. rewrite Hloads.
    rewrite length_wrapped by lia. split; [lia | reflexivity].
Qed.

Lemma reader_end_ok t amount t' :
  threads_ok t → 0 ≤ amount →
  step t (ReaderEnd amount) = Some t' → threads_ok t'.
Proof.
  intros [Hwf Hwr Hws Hrr Hrl Hfifo] Hamount Hstep. cbn in Hstep.
  destruct (Z.leb_spec amount (Z.of_nat (length (reader_loaded t))))
    as [Hloaded |]; try discriminate.
  destruct (endRead (shared t) amount) as [[r1 es] | |] eqn:Hend;
    try discriminate.
  cbn in Hstep. injection Hstep as <-.
  pose proof (endRead_wf _ _ _ _ Hwf Hamount Hend) as Hwf1.
  unfold endRead in Hend.
  destruct (Z.leb_spec amount (pending_read_size (shared t))); [| discriminate].
  cbn in Hend. injection Hend as <- _.
  pose proof Hwf as []. unfold size in *.
  set (r := shared t) in *. set (d := data_provider r) in *.
  destruct Hrl as (Hcount & Hwindow).
  destruct (window_rest d (read_pointer r) amount (reader_loaded t))
    as (Hfirst & Hrest); [lia | lia | lia | assumption |].
  no_wrap. constructor; cbn -[window].
  - exact Hwf1.
  - intros rg Hrg. destruct (Hwr rg Hrg) as (? & ? & Hfrom).
    split; [assumption |]. split; [assumption |].
    destruct rg as [[[? ?] ?] ?]. exact Hfrom.
  - assumption.
  - intros rg Hrg. destruct (Hrr rg Hrg) as (Hnil & Hfrom).
    rewrite Hnil in *. cbn in Hloaded.
    assert (amount = 0) as -> by lia.
    rewrite drop_nil, !Z.add_0_r, !Z.sub_0_r.
    rewrite (Z.mod_small (read_pointer r)) by lia.
    split; [reflexivity |]. destruct rg as [[[? ?] ?] ?]. exact Hfrom.
  - split; [rewrite length_drop; lia | exact Hrest].
  - rewrite Hfifo, <- app_assoc. f_equal. unfold contents. cbn. fold d.
    change (take ?n (drop ?p (d ++ d))) with (window d p n).
    rewrite (window_advance d (read_pointer r) amount (samples_in_buffer r))
      by lia.
    f_equal. exact Hfirst.
Qed.

Lemma step_keeps_ok t c t' :
  threads_ok t → call_in_range c → step t c = Some t' → threads_ok t'.
Proof.
  intros Hok Hrange Hstep. destruct c; cbn in Hrange.
  - eapply writer_begin_ok; [eassumption | apply Hrange | eassumption].
  - eapply writer_store_ok; eassumption.
  - eapply writer_end_ok; [eassumption | apply Hrange | eassumption].
  - eapply reader_begin_ok; [eassumption | apply Hrange | eassumption].
  - eapply reader_load_ok; eassumption.
  - eapply reader_end_ok; [eassumption | apply Hrange | eassumption].
Qed.

Lemma steps_keep_ok cs : ∀ t t',
  threads_ok t → Forall call_in_range cs → steps t cs = Some t' → threads_ok t'.
Proof.
  induction cs as [| c cs IH]; intros t t' Hok Hrange Hsteps; cbn in Hsteps.
  - now injection Hsteps as <-.
  - apply Forall_cons in Hrange as [Hc Hcs].
    destruct (step t c) as [t1 |] eqn:Hstep; [| discriminate]. cbn in Hsteps.
    eapply IH; [| eassumption | eassumption].
    eapply step_keeps_ok; eassumption.
Qed.

(** X10.  The ring is first-in first-out for two threads: however the
    calls of a writer ([beginWrite], the copy into its regions,
    [endWrite], also in several chunks) and of a reader ([beginRead], the
    copy out of its regions, [endRead], also in several chunks)
    interleave on a ring that starts out empty, the samples the reader
    has given back are a prefix of the samples the writer has committed,
    and the rest of them is what the ring buffers.  The writer's copy
    never changes a sample the reader holds or may still read. *)
Theorem interleaved_fifo r cs t' :
  ring_wf r →
  samples_in_buffer r = 0 →
  Forall call_in_range cs →
  steps (idle r) cs = Some t' →
  all_obtained t' `prefix_of` all_committed t'
  ∧ all_committed t' = all_obtained t' ++ contents (shared t')
  ∧ window (data_provider (shared t')) (Z.to_nat (read_pointer (shared t')))
      (length (reader_loaded t'))
    = reader_loaded t'
  ∧ ring_wf (shared t').
Proof.
  intros Hwf Hempty Hrange Hsteps.
  destruct (steps_keep_ok cs (idle r) t') as [Hwf' _ _ _ Hrl Hfifo];
    [now apply idle_ok | assumption ..|].
  split; [exists (contents (shared t')); assumption |].
  split; [assumption |]. split; [apply Hrl | assumption].
Qed.

End ring_use_facts.

(** *** The theorems at concrete rings *)

Import MoreExamples.

Lemma half_full_ring_wf : ring_wf half_full_ring.
Proof. apply ring_wfb_spec. reflexivity. Qed.

Lemma writing_ring_wf : ring_wf writing_ring.
Proof. apply ring_wfb_spec. reflexivity. Qed.

Lemma nearly_wrapped_ring_wf : ring_wf nearly_wrapped_ring.
Proof. apply ring_wfb_spec. reflexivity. Qed.

Lemma fresh_ring_wf (n : nat) :
  ring_wfb (new_ring 0 n) = true → ring_wf (new_ring 0 n).
Proof. apply ring_wfb_spec. Qed.


(** [beginWrite(3)] on the half-full ring leaves [writing_ring]. *)
Lemma member_functions_keep_wf_witness : ring_wf writing_ring.
Proof.
  apply (proj1 (member_functions_keep_wf half_full_ring half_full_ring_wf)
           3 false (3, Some 1, 0, None) writing_ring
           [AtomicLoad memory_order_relaxed]).
  - lia.
  - reflexivity.
Defined.

(** Two of the three pending samples are committed. *)
Lemma endWrite_commits_witness :
  ∃ r',
    endWrite writing_ring 2
    = Returns (r', [AtomicFetchAdd 2 memory_order_release])
    ∧ write_pointer r' = 3
    ∧ samples_in_buffer r' = 5
    ∧ pending_write_size r' = 1
    ∧ contents r' = [15; 16; 11; 12; 13].
Proof.
  destruct (endWrite_commits writing_ring 2 writing_ring_wf
              ltac:(vm_compute; split; discriminate))
    as (r' & Hreturns & Hwp & Hsib & Hpending & _ & _ & _ & _ & Hcontents).
  exists r'. repeat split; assumption.
Defined.

(** Three samples are free on the half-full ring: a request for four
    waits, a request for three returns. *)
Lemma beginWrite_waits_iff_witness :
  beginWrite half_full_ring 4 false = Blocks
  ∧ ∃ rg r' es, beginWrite half_full_ring 3 false = Returns (rg, r', es).
Proof.
  split.
  - apply (proj1 (beginWrite_waits_iff half_full_ring 4 false half_full_ring_wf
                    ltac:(vm_compute; split; discriminate)
                    ltac:(right; discriminate))).
    reflexivity.
  - apply (proj2 (beginWrite_waits_iff half_full_ring 3 false half_full_ring_wf
                    ltac:(vm_compute; split; discriminate)
                    ltac:(right; discriminate))).
    vm_compute. discriminate.
Defined.

(** A copy of three samples that wraps: the buffered [14; 15] stay. *)
Lemma stores_leave_contents_witness :
  contents
    (set_data_provider
       (store_regions (data_provider nearly_wrapped_ring)
          (1, Some 5, 2, Some 0) [21; 22; 23])
       (set_pending_write_size 3 nearly_wrapped_ring))
  = contents nearly_wrapped_ring
  ∧ window
      (store_regions (data_provider nearly_wrapped_ring)
         (1, Some 5, 2, Some 0) [21; 22; 23])
      (Z.to_nat (write_pointer nearly_wrapped_ring)) 3
    = [21; 22; 23].
Proof.
  apply (stores_leave_contents nearly_wrapped_ring 3 false (1, Some 5, 2, Some 0)
           (set_pending_write_size 3 nearly_wrapped_ring)
           [AtomicLoad memory_order_relaxed] [21; 22; 23]
           nearly_wrapped_ring_wf).
  - reflexivity.
  - vm_compute. discriminate.
Defined.

(** The three buffered samples come out around the end of the array. *)
Lemma beginRead_hands_out_oldest_witness :
  load_regions (data_provider half_full_ring) (2, Some 4, 1, Some 0)
  = take 3 (contents half_full_ring).
Proof.
  apply (beginRead_hands_out_oldest half_full_ring 3 false (2, Some 4, 1, Some 0)
           (set_pending_read_size 3 half_full_ring)
           [AtomicLoad memory_order_acquire] half_full_ring_wf).
  - lia.
  - reflexivity.
Defined.

Lemma commit_everything_witness :
  ∃ r', endWrite_all writing_ring
        = Returns (r', [AtomicFetchAdd 3 memory_order_release])
        ∧ pending_write_size r' = 0
        ∧ samples_in_buffer r' = 6.
Proof.
  destruct (proj1 (commit_everything writing_ring writing_ring_wf))
    as (r' & Hreturns & Hpending & Hsib & _).
  exists r'. repeat split; assumption.
Defined.

(** Two samples written behind the three that are buffered. *)
Lemma write_then_read_all_witness :
  ∃ r1 r2,
    write_transaction half_full_ring 2 false [21; 22] = Returns r1
    ∧ read_transaction r1 1 true = Returns ([15; 16; 11; 21; 22], r2)
    ∧ samples_in_buffer r2 = 0.
Proof.
  destruct (write_then_read_all half_full_ring [21; 22] 1 half_full_ring_wf
              ltac:(reflexivity)
              ltac:(vm_compute; split; [reflexivity | discriminate])
              ltac:(vm_compute; split; discriminate))
    as (r1 & r2 & Hwrite & Hread & Hsib & _).
  exists r1, r2. repeat split; assumption.
Defined.

Lemma whole_blocks_single_region_witness :
  ∃ h r',
    run block_session (new_ring 0 6) = Returns (h, r')
    ∧ (∀ rg r1 es, beginWrite r' 2 false = Returns (rg, r1, es) →
         rg = (2, Some (write_pointer r'), 0, None) ∧ (2 | write_pointer r'))
    ∧ (∀ rg r1 es, beginRead r' 2 false = Returns (rg, r1, es) →
         rg = (0, None, 0, None)
         ∨ rg = (2, Some (read_pointer r'), 0, None) ∧ (2 | read_pointer r')).
Proof.
  eexists _, _. split; [vm_compute; reflexivity |].
  eapply (whole_blocks_single_region 2 block_session (new_ring 0 6)).
  - apply fresh_ring_wf. reflexivity.
  - reflexivity.
  - lia.
  - repeat split; [exists 3 | exists 0 | exists 0]; reflexivity.
  - repeat constructor.
  - vm_compute. reflexivity.
Defined.

Lemma interleaved_fifo_witness :
  ∃ t',
    steps (idle (new_ring 0 4)) schedule = Some t'
    ∧ all_committed t' = [1; 2; 3; 4; 5]
    ∧ all_obtained t' = [1; 2]
    ∧ all_obtained t' `prefix_of` all_committed t'
    ∧ all_committed t' = all_obtained t' ++ contents (shared t').
Proof.
  eexists. split; [vm_compute; reflexivity |].
  split; [reflexivity |]. split; [reflexivity |].
  edestruct (interleaved_fifo (new_ring 0 4) schedule)
    as (Hprefix & Hfifo & _).
  - apply fresh_ring_wf. reflexivity.
  - reflexivity.
  - repeat constructor; cbn; unfold in_range; try lia; reflexivity.
  - vm_compute. reflexivity.
  - split; [exact Hprefix | exact Hfifo].
Defined.

End AudioRingUseProofs.

Module GlobalEffectUseProofs.
Import GlobalEffectRun GlobalEffectUse.
Local Open Scope Z_scope.

Section global_effect_use_facts.
Context {float syz_BiquadConfig BiquadFilter object_state : Type}.
Context (float_zero : float).
Context (BLOCK_SIZE MAX_CHANNELS : Z).
Context (createBiquadFilter : Z → BiquadFilter).
Context (configure : BiquadFilter → syz_BiquadConfig → BiquadFilter).
Context (processBlock : BiquadFilter → list float → bool → BiquadFilter * list float).
Context (acquireFilter : object_state → option syz_BiquadConfig * object_state).
Context (getGain : object_state → float).
Context (runEffect : object_state → Z → Z → list float → Z → list float → float →
                     object_state * list float * list float).

Hypothesis BLOCK_SIZE_pos : 0 < BLOCK_SIZE.
Hypothesis buffer_size_fits : BLOCK_SIZE * MAX_CHANNELS < uint_modulus.
Hypothesis processBlock_in_place : ∀ f buffer add,
  length (processBlock f buffer add).2 = length buffer.
Hypothesis runEffect_in_place : ∀ o t ic input oc output g,
  length (runEffect o t ic input oc output g).1.2 = length input.

Implicit Types e : GlobalEffect (float := float) (BiquadFilter := BiquadFilter)
                     (object_state := object_state).

(** The filter once a pending configuration, if any, is applied. *)
Local Abbreviation configured f cfg :=
  (match cfg with Some c => configure f c | None => f end).

Lemma fill_after_effect e (buffer : list float) :
  effect_wf BLOCK_SIZE MAX_CHANNELS e →
  length buffer = length (input_buffer e) →
  std_fill buffer (uint_wrap (channels e * BLOCK_SIZE)) float_zero
  = Some (replicate (Z.to_nat (channels e * BLOCK_SIZE)) float_zero
          ++ drop (Z.to_nat (channels e * BLOCK_SIZE)) buffer)
  ∧ length (replicate (Z.to_nat (channels e * BLOCK_SIZE)) float_zero
            ++ drop (Z.to_nat (channels e * BLOCK_SIZE)) buffer)
    = length buffer.
Proof.
  intros [Hlen Hch] Hbuffer.
  assert (Hlast : uint_wrap (channels e * BLOCK_SIZE) = channels e * BLOCK_SIZE)
    by (apply Z.mod_small; nia).
  rewrite Hlast. unfold std_fill.
  destruct (Z.leb_spec 0 (channels e * BLOCK_SIZE)); [| nia].
  destruct (Z.leb_spec (channels e * BLOCK_SIZE) (Z.of_nat (length buffer)));
    [| nia].
  split; [reflexivity |].
  rewrite length_app, length_replicate, length_drop. lia.
Qed.

(** A run whose filter is in place and whose channel count has not
    changed. *)
Lemma run_with_filter e out_channels destination f :
  effect_wf BLOCK_SIZE MAX_CHANNELS e →
  biquad_filter e = Some f →
  last_channels e = channels e ∨ channels e = 0 →
  ∃ cfg object1 f' filtered object2 processed destination',
    acquireFilter (object e) = (cfg, object1)
    ∧ processBlock (configured f cfg) (input_buffer e) false = (f', filtered)
    ∧ runEffect object1 (time_in_blocks e) (channels e) filtered
        out_channels destination (getGain object1)
      = (object2, processed, destination')
    ∧ run float_zero BLOCK_SIZE createBiquadFilter configure processBlock
        acquireFilter getGain runEffect e out_channels destination
      = Some (mkGlobalEffect
                (replicate (Z.to_nat (channels e * BLOCK_SIZE)) float_zero
                 ++ drop (Z.to_nat (channels e * BLOCK_SIZE)) processed)
                (channels e) (uint_wrap (time_in_blocks e + 1)) (channels e)
                (Some f') object2,
              destination',
              (match cfg with
               | Some _ => [CallAcquireFilter; CallConfigure]
               | None => [CallAcquireFilter]
               end) ++ [CallProcessBlock; CallRunEffect; CallFill])
    ∧ length processed = length (input_buffer e).
Proof.
  intros Hwf Hfilter Hlast. unfold run.
  assert (Hif : (is_null (biquad_filter e)
                 || negb (channels e =? last_channels e))
                && negb (channels e =? 0) = false).
  { rewrite Hfilter. cbn. destruct Hlast as [-> | ->].
    - now rewrite Z.eqb_refl.
    - apply andb_false_r. }
  rewrite Hif, Hfilter. cbn.
  destruct (acquireFilter (object e)) as [cfg object1] eqn:Hacquire.
  pose proof (processBlock_in_place (configured f cfg) (input_buffer e) false)
    as Hfiltered.
  destruct (processBlock (configured f cfg) (input_buffer e) false)
    as [f' filtered] eqn:Hprocess.
  pose proof (runEffect_in_place object1 (time_in_blocks e) (channels e)
                filtered out_channels destination (getGain object1)) as Hprocessed.
  destruct (runEffect object1 (time_in_blocks e) (channels e) filtered
              out_channels destination (getGain object1))
    as [[object2 processed] destination'] eqn:Hrun.
  cbn in Hfiltered, Hprocessed.
  destruct (fill_after_effect e processed Hwf ltac:(congruence)) as (Hfill & _).
  exists cfg, object1, f', filtered, object2, processed, destination'.
  split; [reflexivity |]. split; [assumption |]. split; [assumption |].
  split; [| congruence].
  destruct cfg; cbn in Hprocess |- *; rewrite Hprocess, Hrun; cbn;
    rewrite Hfill; cbn; rewrite <- ?app_assoc; reflexivity.
Qed.

(** A run that creates its filter: the effect has channels, and no
    filter yet or a channel count that has changed. *)
Lemma run_creating_filter e out_channels destination :
  effect_wf BLOCK_SIZE MAX_CHANNELS e →
  0 < channels e →
  biquad_filter e = None ∨ last_channels e ≠ channels e →
  ∃ cfg object1 f' filtered object2 processed destination',
    acquireFilter (object e) = (cfg, object1)
    ∧ processBlock (configured (createBiquadFilter (channels e)) cfg)
        (input_buffer e) false
      = (f', filtered)
    ∧ runEffect object1 (time_in_blocks e) (channels e) filtered
        out_channels destination (getGain object1)
      = (object2, processed, destination')
    ∧ run float_zero BLOCK_SIZE createBiquadFilter configure processBlock
        acquireFilter getGain runEffect e out_channels destination
      = Some (mkGlobalEffect
                (replicate (Z.to_nat (channels e * BLOCK_SIZE)) float_zero
                 ++ drop (Z.to_nat (channels e * BLOCK_SIZE)) processed)
                (channels e) (uint_wrap (time_in_blocks e + 1)) (channels e)
                (Some f') object2,
              destination',
              CallCreateBiquadFilter
              :: (match cfg with
                  | Some _ => [CallAcquireFilter; CallConfigure]
                  | None => [CallAcquireFilter]
                  end) ++ [CallProcessBlock; CallRunEffect; CallFill])
    ∧ length processed = length (input_buffer e).
Proof.
  intros Hwf Hpos Hcreate. unfold run.
  assert (Hif : (is_null (biquad_filter e)
                 || negb (channels e =? last_channels e))
                && negb (channels e =? 0) = true).
  { destruct (Z.eqb_spec (channels e) 0); [lia |]. rewrite andb_true_r.
    destruct Hcreate as [-> | Hchanged]; [reflexivity |].
    destruct (Z.eqb_spec (channels e) (last_channels e)); [congruence |].
    apply orb_true_r. }
  rewrite Hif. cbn.
  destruct (acquireFilter (object e)) as [cfg object1] eqn:Hacquire.
  pose proof (processBlock_in_place
                (configured (createBiquadFilter (channels e)) cfg)
                (input_buffer e) false) as Hfiltered.
  destruct (processBlock (configured (createBiquadFilter (channels e)) cfg)
              (input_buffer e) false) as [f' filtered] eqn:Hprocess.
  pose proof (runEffect_in_place object1 (time_in_blocks e) (channels e)
                filtered out_channels destination (getGain object1)) as Hprocessed.
  destruct (runEffect object1 (time_in_blocks e) (channels e) filtered
              out_channels destination (getGain object1))
    as [[object2 processed] destination'] eqn:Hrun.
  cbn in Hfiltered, Hprocessed.
  destruct (fill_after_effect e processed Hwf ltac:(congruence)) as (Hfill & _).
  exists cfg, object1, f', filtered, object2, processed, destination'.
  split; [reflexivity |]. split; [assumption |]. split; [assumption |].
  split; [| congruence].
  destruct cfg; cbn in Hprocess |- *; rewrite Hprocess, Hrun; cbn;
    rewrite Hfill; cbn; rewrite <- ?app_assoc; reflexivity.
Qed.

(** X11.  A run on a well-formed effect always returns; it keeps the
    effect well-formed, with the same channel count and an input bus of
    the same length, records the channel count in [last_channels] and
    advances [time_in_blocks] by one, modulo [2^32]. *)
Theorem run_keeps_effect_wf e out_channels destination :
  effect_wf BLOCK_SIZE MAX_CHANNELS e →
  ∃ e' destination' log,
    run float_zero BLOCK_SIZE createBiquadFilter configure processBlock
      acquireFilter getGain runEffect e out_channels destination
    = Some (e', destination', log)
    ∧ effect_wf BLOCK_SIZE MAX_CHANNELS e'
    ∧ channels e' = channels e
    ∧ last_channels e' = channels e
    ∧ time_in_blocks e' = (time_in_blocks e + 1) `mod` 2 ^ 32
    ∧ length (input_buffer e') = length (input_buffer e).
Proof.
  intros Hwf. pose proof Hwf as [Hlen Hch].
  assert (Hcases : (∃ f, biquad_filter e = Some f
                         ∧ (last_channels e = channels e ∨ channels e = 0))
                   ∨ (0 < channels e
                      ∧ (biquad_filter e = None ∨ last_channels e ≠ channels e))
                   ∨ (channels e = 0 ∧ biquad_filter e = None)).
  { destruct (biquad_filter e) as [f |];
      destruct (Z.eq_dec (last_channels e) (channels e));
      destruct (Z.eq_dec (channels e) 0); eauto 6; right; left; split;
      try lia; eauto. }
  destruct Hcases as [(f & Hfilter & Hkeep) | [(Hpos & Hcreate) | (Hzero & Hnone)]].
  - destruct (run_with_filter e out_channels destination f Hwf Hfilter Hkeep)
      as (cfg & o1 & f' & filtered & o2 & processed & d' & _ & _ & _ & -> & Hp).
    destruct (fill_after_effect e processed Hwf Hp) as (_ & Hfilled).
    eexists _, _, _. split; [reflexivity |]. cbn.
    split; [split; cbn; [rewrite Hfilled, Hp | ]; assumption |].
    repeat split. congruence.
  - destruct (run_creating_filter e out_channels destination Hwf Hpos Hcreate)
      as (cfg & o1 & f' & filtered & o2 & processed & d' & _ & _ & _ & -> & Hp).
    destruct (fill_after_effect e processed Hwf Hp) as (_ & Hfilled).
    eexists _, _, _. split; [reflexivity |]. cbn.
    split; [split; cbn; [rewrite Hfilled, Hp | ]; assumption |].
    repeat split. congruence.
  - unfold run. rewrite Hnone, Hzero. cbn.
    pose proof (runEffect_in_place (object e) (time_in_blocks e) 0
                  (input_buffer e) out_channels destination (getGain (object e)))
      as Hp.
    destruct (runEffect (object e) (time_in_blocks e) 0 (input_buffer e)
                out_channels destination (getGain (object e)))
      as [[o2 processed] d'].
    cbn in Hp.
    assert (Hfill : std_fill processed (uint_wrap (0 * BLOCK_SIZE)) float_zero
                    = Some processed).
    { unfold std_fill. change (uint_wrap (0 * BLOCK_SIZE)) with 0. cbn.
      destruct (Z.leb_spec 0 (Z.of_nat (length processed))); [reflexivity | lia]. }
    rewrite Hfill. cbn.
    eexists _, _, _. split; [reflexivity |]. cbn.
    split; [split; cbn; [rewrite Hp; assumption | lia] |].
    repeat split; congruence.
Qed.

(** X12.  The filter lives on from one run to the next.  After a run of
    an effect with channels, and whatever the router has put into the
    input bus since, the next run creates no filter: it processes the
    new input with the filter the first run left behind, configured anew
    when a configuration is pending, and leaves the filter that results
    for the run after. *)
Theorem filter_carried_over e out1 destination1 e1 d1 log1
    (buffer : list float) out2 destination2 :
  effect_wf BLOCK_SIZE MAX_CHANNELS e →
  0 < channels e →
  run float_zero BLOCK_SIZE createBiquadFilter configure processBlock
    acquireFilter getGain runEffect e out1 destination1
  = Some (e1, d1, log1) →
  length buffer = length (input_buffer e1) →
  ∃ f1 cfg object1 f2 filtered e2 d2 log2,
    biquad_filter e1 = Some f1
    ∧ acquireFilter (object e1) = (cfg, object1)
    ∧ processBlock (configured f1 cfg) buffer false = (f2, filtered)
    ∧ run float_zero BLOCK_SIZE createBiquadFilter configure processBlock
        acquireFilter getGain runEffect (set_input_buffer buffer e1)
        out2 destination2
      = Some (e2, d2, log2)
    ∧ (CallCreateBiquadFilter ∉ log2)
    ∧ biquad_filter e2 = Some f2.
Proof.
  intros Hwf Hpos Hrun Hbuffer. pose proof Hwf as [Hlen Hch].
  assert (Hfirst : ∃ f1 processed o1,
            e1 = mkGlobalEffect
                   (replicate (Z.to_nat (channels e * BLOCK_SIZE)) float_zero
                    ++ drop (Z.to_nat (channels e * BLOCK_SIZE)) processed)
                   (channels e) (uint_wrap (time_in_blocks e + 1)) (channels e)
                   (Some f1) o1
            ∧ length processed = length (input_buffer e)).
  { destruct (biquad_filter e) as [f |] eqn:Hfilter;
      [destruct (Z.eq_dec (last_channels e) (channels e)) as [Hsame | Hchanged] |].
    - destruct (run_with_filter e out1 destination1 f Hwf Hfilter (or_introl Hsame))
        as (cfg & o1 & f' & filtered & o2 & processed & d' & _ & _ & _ & Heq & Hp).
      rewrite Heq in Hrun. injection Hrun as <- _ _. eauto.
    - destruct (run_creating_filter e out1 destination1 Hwf Hpos
                  (or_intror Hchanged))
        as (cfg & o1 & f' & filtered & o2 & processed & d' & _ & _ & _ & Heq & Hp).
      rewrite Heq in Hrun. injection Hrun as <- _ _. eauto.
    - destruct (run_creating_filter e out1 destination1 Hwf Hpos
                  (or_introl Hfilter))
        as (cfg & o1 & f' & filtered & o2 & processed & d' & _ & _ & _ & Heq & Hp).
      rewrite Heq in Hrun. injection Hrun as <- _ _. eauto. }
  destruct Hfirst as (f1 & processed & o1 & -> & Hp). cbn in *.
  destruct (fill_after_effect e processed Hwf Hp) as (_ & Hfilled).
  assert (Hwf1 : effect_wf BLOCK_SIZE MAX_CHANNELS
                   (set_input_buffer buffer
                      (mkGlobalEffect
                         (replicate (Z.to_nat (channels e * BLOCK_SIZE)) float_zero
                          ++ drop (Z.to_nat (channels e * BLOCK_SIZE)) processed)
                         (channels e) (uint_wrap (time_in_blocks e + 1))
                         (channels e) (Some f1) o1))).
  { split; cbn; [| assumption]. rewrite Hbuffer, Hfilled, Hp. assumption. }
  destruct (run_with_filter _ out2 destination2 f1 Hwf1 eq_refl
              (or_introl eq_refl))
    as (cfg & object1 & f2 & filtered & o2 & processed2 & d2 & Hacquire
        & Hprocess & _ & Heq & _).
  cbn in Hacquire, Hprocess.
  exists f1, cfg, object1, f2, filtered. eexists _, _, _.
  split; [reflexivity |]. split; [assumption |]. split; [assumption |].
  split; [exact Heq |]. split; [| reflexivity].
  destruct cfg; cbn; rewrite !elem_of_cons, elem_of_nil; intuition discriminate.
Qed.

(** X13.  An effect without channels and without a filter creates no
    filter and processes nothing: its run is [runEffect] on the input bus
    as it stands, and the [std::fill] that follows zeroes no element. *)
Theorem run_without_channels e out_channels destination :
  channels e = 0 →
  biquad_filter e = None →
  run float_zero BLOCK_SIZE createBiquadFilter configure processBlock
    acquireFilter getGain runEffect e out_channels destination
  = let '(object', processed, destination') :=
      runEffect (object e) (time_in_blocks e) 0 (input_buffer e)
        out_channels destination (getGain (object e)) in
    Some (mkGlobalEffect processed 0 (uint_wrap (time_in_blocks e + 1)) 0
            None object',
          destination', [CallRunEffect; CallFill]).
Proof.
  intros Hzero Hnone. unfold run. rewrite Hnone, Hzero. cbn.
  destruct (runEffect (object e) (time_in_blocks e) 0 (input_buffer e)
              out_channels destination (getGain (object e)))
    as [[o2 processed] d'].
  assert (Hfill : std_fill processed (uint_wrap (0 * BLOCK_SIZE)) float_zero
                    = Some processed).
  { unfold std_fill. change (uint_wrap (0 * BLOCK_SIZE)) with 0. cbn.
      destruct (Z.leb_spec 0 (Z.of_nat (length processed))); [reflexivity | lia]. }
  rewrite Hfill. reflexivity.
Qed.

(** X14.  An effect built with [0 < channels <= MAX_CHANNELS] is
    well-formed, with an input bus of zeroes, and its first run starts by
    creating the filter for that channel count; that filter, configured
    when a configuration is pending, processes the block. *)
Theorem first_run_creates_filter (channels : Z) (o : object_state)
    out_channels destination :
  0 < channels ≤ MAX_CHANNELS →
  effect_wf BLOCK_SIZE MAX_CHANNELS (new_effect (BiquadFilter := BiquadFilter) float_zero BLOCK_SIZE
       MAX_CHANNELS channels o)
  ∧ ∃ cfg object1 f' filtered e' destination' rest,
      acquireFilter o = (cfg, object1)
      ∧ processBlock (configured (createBiquadFilter channels) cfg)
          (replicate (Z.to_nat (BLOCK_SIZE * MAX_CHANNELS)) float_zero) false
        = (f', filtered)
      ∧ run float_zero BLOCK_SIZE createBiquadFilter configure processBlock
          acquireFilter getGain runEffect
          (new_effect (BiquadFilter := BiquadFilter) float_zero BLOCK_SIZE
       MAX_CHANNELS channels o)
          out_channels destination
        = Some (e', destination', CallCreateBiquadFilter :: rest)
      ∧ biquad_filter e' = Some f'.
Proof.
  intros Hch.
  assert (Hwf : effect_wf BLOCK_SIZE MAX_CHANNELS
                  (new_effect (BiquadFilter := BiquadFilter) float_zero BLOCK_SIZE
       MAX_CHANNELS channels o)).
  { split; cbn; [rewrite length_replicate; nia | lia]. }
  split; [assumption |].
  destruct (run_creating_filter _ out_channels destination Hwf
              ltac:(cbn; lia) (or_introl eq_refl))
    as (cfg & object1 & f' & filtered & o2 & processed & d' & Hacquire
        & Hprocess & _ & Heq & _).
  cbn in Hacquire, Hprocess.
  exists cfg, object1, f', filtered. eexists _, _, _.
  split; [assumption |]. split; [assumption |].
  split; [exact Heq | reflexivity].
Qed.

End global_effect_use_facts.

(** *** The theorems at concrete effects *)

Import Examples MoreExamples.

Lemma mono_effect_well_formed : effect_wf 2 2 mono_effect.
Proof. split; cbn; lia. Qed.

Lemma run_keeps_effect_wf_witness :
  ∃ e' destination' log,
    mono_run mono_effect 2 [5; 5; 5; 5] = Some (e', destination', log)
    ∧ effect_wf 2 2 e'
    ∧ last_channels e' = 1
    ∧ time_in_blocks e' = 1 `mod` 2 ^ 32.
Proof.
  destruct (run_keeps_effect_wf 0 2 2 (λ _, ()) (λ f (_ : unit), f)
              doubling_processBlock (λ o, (None, o)) (λ _, 1) adding_runEffect
              ltac:(lia) ltac:(reflexivity)
              ltac:(intros; apply length_fmap) ltac:(reflexivity)
              mono_effect 2 [5; 5; 5; 5] mono_effect_well_formed)
    as (e' & d' & log & Hrun & Hwf & _ & Hlast & Htime & _).
  exists e', d', log. repeat split; assumption || apply Hwf.
Defined.

(** The effect that the first run of [mono_effect] leaves, with new
    input from the router: the second run reuses the filter. *)
Lemma filter_carried_over_witness :
  ∃ e2 d2 log2,
    mono_run
      (set_input_buffer [9; 9; 9; 9] (mkGlobalEffect [0; 0; 6; 8] 1 1 1 (Some ()) ()))
      2 [0; 0; 0; 0]
    = Some (e2, d2, log2)
    ∧ (CallCreateBiquadFilter ∉ log2)
    ∧ biquad_filter e2 = Some ().
Proof.
  destruct (filter_carried_over 0 2 2 (λ _, ()) (λ f (_ : unit), f)
              doubling_processBlock (λ o, (None, o)) (λ _, 1) adding_runEffect
              ltac:(lia) ltac:(reflexivity)
              ltac:(intros; apply length_fmap) ltac:(reflexivity)
              mono_effect 2 [5; 5; 5; 5]
              (mkGlobalEffect [0; 0; 6; 8] 1 1 1 (Some ()) ())
              [7; 9; 11; 13]
              [CallCreateBiquadFilter; CallAcquireFilter; CallProcessBlock;
               CallRunEffect; CallFill]
              [9; 9; 9; 9] 2 [0; 0; 0; 0]
              mono_effect_well_formed ltac:(reflexivity)
              ltac:(reflexivity) ltac:(reflexivity))
    as (f1 & cfg & object1 & f2 & filtered & e2 & d2 & log2
        & _ & _ & _ & Hrun & Hnot & Hfilter).
  exists e2, d2, log2. destruct f2. repeat split; assumption.
Defined.

Lemma run_without_channels_witness :
  mono_run silent_effect 2 [5; 5; 5; 5]
  = Some (mkGlobalEffect [1; 2; 3; 4] 0 8 0 None (), [6; 7; 8; 9],
          [CallRunEffect; CallFill]).
Proof.
  exact (run_without_channels 0 2 (λ _, ()) (λ f (_ : unit), f)
           doubling_processBlock (λ o, (None, o)) (λ _, 1) adding_runEffect
           silent_effect 2 [5; 5; 5; 5] eq_refl eq_refl).
Defined.

Lemma first_run_creates_filter_witness :
  ∃ e' destination' rest,
    mono_run (new_effect 0 2 2 1 ()) 2 [5; 5; 5; 5]
    = Some (e', destination', CallCreateBiquadFilter :: rest)
    ∧ biquad_filter e' = Some ().
Proof.
  destruct (proj2 (first_run_creates_filter 0 2 2 (λ _, ()) (λ f (_ : unit), f)
                     doubling_processBlock (λ o, (None, o)) (λ _, 1)
                     adding_runEffect
                     ltac:(lia) ltac:(reflexivity)
                     ltac:(intros; apply length_fmap) ltac:(reflexivity)
                     1 () 2 [5; 5; 5; 5] ltac:(lia)))
    as (cfg & object1 & f' & filtered & e' & d' & rest & _ & _ & Hrun & Hfilter).
  exists e', d', rest. destruct f'. split; assumption.
Defined.

End GlobalEffectUseProofs.

Module FilterPropertiesUseProofs.
Import FilterProperties.
Local Open Scope Z_scope.

Section filter_use_facts.
Context {double exception : Type}.
Context (double_div : double → double → double).
Context (SR : double).
Context (error_code : exception → positive).
Context (designAudioEqLowpass designAudioEqHighpass designAudioEqBandpass
  : double → double → exception + BiquadFilterDef (double := double)).

(** X15.  [convertBiquadDef] loses nothing: two filter definitions that
    convert to the same [syz_BiquadConfig] are the same definition. *)
Theorem convertBiquadDef_injective (def1 def2 : BiquadFilterDef (double := double)) :
  convertBiquadDef def1 = convertBiquadDef def2 → def1 = def2.
Proof.
  destruct def1 as [num1 den1 gain1], def2 as [num2 den2 gain2].
  inv_vec num1; intros x0 x1 x2. inv_vec den1; intros y1 y2.
  inv_vec num2; intros x0' x1' x2'. inv_vec den2; intros y1' y2'.
  unfold convertBiquadDef. cbn. intros [= -> -> -> -> -> ->]. reflexivity.
Qed.

(** X16.  A designing entry point reports an error exactly when its
    designer throws: the code it returns is then the nonzero code of the
    exception, and [*filter] is what it was, also when [filter] is null.
    No other path returns a nonzero code. *)
Theorem design_fails_iff_throws (k : design) filter frequency q code filter' :
  syz_biquadDesign double_div SR error_code
    designAudioEqLowpass designAudioEqHighpass designAudioEqBandpass
    k filter frequency q
  = ApiReturns code filter'
  ∧ code ≠ 0
  ↔ ∃ e,
      designAudioEq designAudioEqLowpass designAudioEqHighpass
        designAudioEqBandpass k (double_div frequency SR) q
      = inl e
      ∧ code = Z.pos (error_code e)
      ∧ filter' = filter.
Proof.
  rewrite FilterPropertiesProofs.entry_point_cases. split.
  - intros [H Hcode].
    destruct (designAudioEq _ _ _ k _ q) as [e | def]; [| destruct filter];
      inversion H; subst; [| congruence].
    exists e. repeat split.
  - intros (e & -> & -> & ->). split; [reflexivity | discriminate].
Qed.

End filter_use_facts.

(** *** The theorem at a concrete definition *)

Import Examples.

Lemma convertBiquadDef_injective_witness :
  mk_BiquadFilterDef [# 1; 2; 3] [# 4; 5] 6
  = mk_BiquadFilterDef [# 1; 2; 1 + 2] [# 2 + 2; 5] (2 * 3).
Proof.
  apply (convertBiquadDef_injective (double := Z)). reflexivity.
Defined.

End FilterPropertiesUseProofs.
